(** * Shortest-connection API: filter compiler, path query builder,
      path decomposer and entity type resolver

    A shallow embedding of [web/pages/api/graphql.ts].  The resolver
    [find_path] compiles the optional category filters into the text of a
    Cypher [shortestPath] query ([build_query], [create_filter]), hands the
    text to the Neo4j driver, and reshapes the returned path into
    (person, relationship, project) triples.  The union resolver
    [MovieOrTvEpisode.__resolveType] tells movies from episodes.

    JavaScript values are modelled by [jsval]; strings are Rocq strings;
    objects that the code only reads or extends by one key are finite maps
    from property names to values; objects that are mutated while shared
    live in an explicit heap. *)

From stdpp Require Import gmap strings list pretty.

Set Warnings "-register-all".
Open Scope string_scope.

(** ** JavaScript values *)

(** The values that reach the code: GraphQL input coercion yields booleans,
    numbers, strings, [null], lists and (for the [Date] scalar) the driver's
    [Date] objects; the driver's records hold the same plus its [Integer]
    objects; [find_path] adds promises.

    - [JNum n] is a JavaScript number with the integral value [n]
      (GraphQL [Int], and [Float] operands without fraction; below 10^21 in
      magnitude, where [String(n)] is the plain decimal numeral);
    - [JFloat txt] is any other number, carried with the text [String]
      gives for it;
    - [JDate iso] is a neo4j-driver [Date], carried with the text its
      [toString()] gives;
    - [JInteger n] is a neo4j-driver [Integer] object;
    - [JPromise q] is the promise
      [driver.session().run(q).then(res => res.records[0].get(0).properties)],
      not settled yet. *)
Inductive jsval :=
| JUndefined
| JNull
| JBool (b : bool)
| JNum (n : Z)
| JFloat (txt : string)
| JStr (s : string)
| JDate (iso : string)
| JInteger (n : Z)
| JArr (l : list jsval)
| JObj (m : gmap string jsval)
| JPromise (q : string).

(** A plain object: own enumerable properties, looked up by name. *)
Abbreviation obj := (gmap string jsval).

(** [o.k] : reading a property that is not there gives [undefined]. *)
Definition get_prop (o : obj) (k : string) : jsval := default JUndefined (o !! k).

(** [o.hasOwnProperty(k)] *)
Definition hasOwnProperty (o : obj) (k : string) : bool := bool_decide (is_Some (o !! k)).

(** JavaScript's ToBoolean. *)
Definition truthy (v : jsval) : bool :=
  match v with
  | JUndefined | JNull => false
  | JBool b => b
  | JNum n => negb (n =? 0)%Z
  | JFloat txt => negb (String.eqb txt "NaN")
  | JStr s => negb (String.eqb s "")
  | JDate _ | JInteger _ | JArr _ | JObj _ | JPromise _ => true
  end.

(** The double quote character, as it occurs inside the template literals. *)
Definition dquote : string := String (Ascii.ascii_of_nat 34) "".

(** The line break of the multi-line template literal in [build_query]. *)
Definition newline : string := String (Ascii.ascii_of_nat 10) "".

(** [String(v)], the conversion a template literal [${v}] applies.  An array
    is its elements joined by commas, with [null] and [undefined] elements
    rendered as the empty text. *)
Fixpoint to_String (v : jsval) : string :=
  match v with
  | JUndefined => "undefined"
  | JNull => "null"
  | JBool true => "true"
  | JBool false => "false"
  | JNum n => pretty n
  | JFloat txt => txt
  | JStr s => s
  | JDate iso => iso
  | JInteger n => pretty n
  | JArr l =>
      String.concat ","
        ((fix elems (l : list jsval) : list string :=
            match l with
            | [] => []
            | e :: l' =>
                match e with
                | JUndefined | JNull => ""
                | _ => to_String e
                end :: elems l'
            end) l)
  | JObj _ => "[object Object]"
  | JPromise _ => "[object Promise]"
  end.

(** ** Abrupt completion *)

Inductive js_error := TypeError.

(** The outcome of running a piece of code: it returns a value or throws. *)
Inductive completion (A : Type) :=
| Returned (a : A)
| Thrown (e : js_error).
Arguments Returned {A} a.
Arguments Thrown {A} e.

#[global] Instance completion_ret : MRet completion := @Returned.
#[global] Instance completion_bind : MBind completion := λ A B f c,
  match c with
  | Returned a => f a
  | Thrown e => Thrown e
  end.
#[global] Instance completion_fmap : FMap completion := λ A B f c,
  match c with
  | Returned a => Returned (f a)
  | Thrown e => Thrown e
  end.

(** [values[i]] : indexing [null] or [undefined] throws; an array gives its
    element or [undefined]; a string gives its [i]-th character; any other
    value has no such property. *)
Definition index (values : jsval) (i : nat) : completion jsval :=
  match values with
  | JUndefined | JNull => Thrown TypeError
  | JArr l => Returned (default JUndefined (l !! i))
  | JStr s =>
      Returned (match String.get i s with
                | Some c => JStr (String c "")
                | None => JUndefined
                end)
  | JObj m => Returned (get_prop m (pretty i))
  | _ => Returned JUndefined
  end.

(** ** String primitives *)

(** [s.endsWith(suffix)] *)
Fixpoint endsWith (s suffix : string) : bool :=
  String.eqb s suffix ||
  match s with
  | "" => false
  | String _ s' => endsWith s' suffix
  end.

(** [s.split(sep)] for a non-empty separator: the pieces of [s] between the
    occurrences of [sep], scanned from the left.  [skip] counts the
    characters of a separator just matched that are still to be passed. *)
Fixpoint split_go (sep : string) (skip : nat) (s : string) : list string :=
  match s with
  | "" => [""]
  | String c s' =>
      match skip with
      | S k => split_go sep k s'
      | O =>
          if String.prefix sep s
          then "" :: split_go sep (String.length sep - 1) s'
          else match split_go sep 0 s' with
               | piece :: pieces => String c piece :: pieces
               | [] => [String c ""]
               end
      end
  end.

Definition split (sep s : string) : list string := split_go sep 0 s.

(** [pieces[0]] inside a template literal. *)
Definition first_piece (pieces : list string) : string :=
  match pieces with
  | piece :: _ => piece
  | [] => "undefined"
  end.

(** ** Arguments of the [find_path] query *)

(** A filter input object: its own properties in enumeration order, which
    for GraphQL field names is insertion order. *)
Definition Filter := list (string * jsval).

(** [PathFilters]: each member is an input object, or missing or [null]. *)
Record PathFilters := {
  movie_filter : option Filter;
  tv_filter : option Filter;
  person_filter : option Filter;
}.

(** [PathArgs]: two [Int!] identifiers and the optional filters. *)
Record PathArgs := {
  first_person_id : Z;
  second_person_id : Z;
  filters : option PathFilters;
}.

(** ** The filter compiler *)

(** The first statement of the loop body of [create_filter]: a [Date] is
    wrapped in a one-element array holding its [date("...")] literal; any
    other operand is taken as it is. *)
Definition filter_values (v : jsval) : jsval :=
  match v with
  | JDate _ => JArr [JStr ("date(" +:+ dquote +:+ to_String v +:+ dquote +:+ ")")]
  | _ => v
  end.

(** One iteration of the loop of [create_filter]: the text pushed for the
    property [x] with value [v].  The cases of [switch (true)] are tried in
    source order. *)
Definition filter_entry (x : string) (v : jsval) : completion string :=
  let values := filter_values v in
  if endsWith x "_GT" then
    Returned ("r." +:+ first_piece (split "_GT" x) +:+ " > " +:+ to_String values)
  else if endsWith x "_LT" then
    Returned ("r." +:+ first_piece (split "_LT" x) +:+ " < " +:+ to_String values)
  else if endsWith x "_GTE" then
    Returned ("r." +:+ first_piece (split "_GTE" x) +:+ " >= " +:+ to_String values)
  else if endsWith x "_LTE" then
    Returned ("r." +:+ first_piece (split "_LTE" x) +:+ " <= " +:+ to_String values)
  else if endsWith x "_IN" then
    lo ← index values 0;
    hi ← index values 1;
    Returned (to_String lo +:+ " <= r." +:+ first_piece (split "_IN" x)
              +:+ " <= " +:+ to_String hi)
  else
    Returned ("r." +:+ x +:+ " = " +:+ to_String values).

(** The loop of [create_filter]; [filters] is the array built so far. *)
Fixpoint create_filter_loop (filter : Filter) (filters : list string)
  : completion (list string) :=
  match filter with
  | [] => Returned filters
  | (x, v) :: rest =>
      pushed ← filter_entry x v;
      create_filter_loop rest (filters ++ [pushed])
  end.

Definition create_filter (filter : Filter) : completion string :=
  filters ← create_filter_loop filter [];
  Returned (String.concat " AND " filters).

(** ** The path query builder *)

(** [f ? create_filter(f) : null], for [f] an input object or missing. *)
Definition compile_category (f : option Filter) : completion (option string) :=
  match f with
  | Some filter => Some <$> create_filter filter
  | None => Returned None
  end.

(** [if (F) filters.push(clause F)] : [null] and the empty text are falsy. *)
Definition push_clause (F : option string) (clause : string → string)
    (filters : list string) : list string :=
  match F with
  | Some text => if truthy (JStr text) then filters ++ [clause text] else filters
  | None => filters
  end.

(** The template literals of [build_query].  The first spans four lines of
    the source, the last three indented by eighteen spaces. *)
Definition indent : string := "                  ".

Definition match_text (first second : Z) : string :=
  "MATCH" +:+ newline +:+
  indent +:+ "(p1:Person {person_id: " +:+ pretty first +:+ "})," +:+ newline +:+
  indent +:+ "(p2:Person {person_id: " +:+ pretty second +:+ "})," +:+ newline +:+
  indent +:+ "p = shortestPath((p1)-[*]-(p2))".

Definition Movie_clause (MovieFilter : string) : string :=
  "all(r IN [x in nodes(p) where x:Movie] WHERE " +:+ MovieFilter +:+ ")".

Definition TvEpisode_clause (TvFilter : string) : string :=
  "all(r IN [x in nodes(p) where x:TvEpisode] WHERE " +:+ TvFilter +:+ ")".

Definition Person_clause (first second : Z) (PersonFilter : string) : string :=
  "all(r IN [x in nodes(p) where x:Person] WHERE " +:+ PersonFilter
  +:+ " OR r.person_id = " +:+ pretty first
  +:+ " OR r.person_id = " +:+ pretty second +:+ ")".

Definition build_query (_args : PathArgs) : completion string :=
  let query := match_text (first_person_id _args) (second_person_id _args) in
  MovieFilter ← compile_category (filters _args ≫= movie_filter);
  TvFilter ← compile_category (filters _args ≫= tv_filter);
  PersonFilter ← compile_category (filters _args ≫= person_filter);
  let query :=
    if bool_decide (is_Some (filters _args ≫= person_filter))
       || bool_decide (is_Some (filters _args ≫= movie_filter))
       || bool_decide (is_Some (filters _args ≫= tv_filter))
    then query +:+ " WHERE "
    else query in
  let filters := [] in
  let filters := push_clause MovieFilter Movie_clause filters in
  let filters := push_clause TvFilter TvEpisode_clause filters in
  let filters :=
    push_clause PersonFilter
      (Person_clause (first_person_id _args) (second_person_id _args)) filters in
  let query := query +:+ String.concat " AND " filters in
  let query := query +:+ " RETURN p" in
  Returned query.

(** ** The declared filter inputs *)

(** The GraphQL types of the operands, as the [input] declarations of
    [typeDefs] give them. *)
Inductive gql_type :=
| TBoolean
| TInt
| TFloat
| TString
| TDate
| TList (t : gql_type).

(** [input MovieFilter] *)
Definition MovieFilter : list (string * gql_type) :=
  [ ("adult", TBoolean);
    ("budget_GT", TInt); ("budget_LT", TInt); ("budget_GTE", TInt);
    ("budget_LTE", TInt); ("budget_IN", TList TInt);
    ("revenue_GT", TInt); ("revenue_LT", TInt); ("revenue_GTE", TInt);
    ("revenue_LTE", TInt); ("revenue_IN", TList TInt);
    ("genres", TList TString); ("imdb_id", TString); ("movie_id", TInt);
    ("movie_id_GT", TInt); ("movie_id_LT", TInt); ("movie_id_GTE", TInt);
    ("movie_id_LTE", TInt); ("movie_id_IN", TList TInt);
    ("production_companies", TList TInt); ("spoken_languages", TList TString);
    ("release_date_GT", TDate); ("release_date_LT", TDate);
    ("release_date_GTE", TDate); ("release_date_LTE", TDate);
    ("release_date_IN", TList TDate);
    ("status", TString); ("runtime", TInt) ].

(** [input TvFilter] *)
Definition TvFilter : list (string * gql_type) :=
  [ ("air_date_GT", TDate); ("air_date_LT", TDate); ("air_date_GTE", TDate);
    ("air_date_LTE", TDate); ("air_date_IN", TList TDate);
    ("episode_id", TInt);
    ("vote_average_GT", TFloat); ("vote_average_LT", TFloat);
    ("vote_average_GTE", TFloat); ("vote_average_LTE", TFloat);
    ("vote_average_IN", TList TFloat);
    ("runtime_GT", TInt); ("runtime_LT", TInt); ("runtime_GTE", TInt);
    ("runtime_LTE", TInt); ("runtime_IN", TList TInt) ].

(** [input PersonFilter] *)
Definition PersonFilter : list (string * gql_type) :=
  [ ("adult", TBoolean);
    ("birthday_GT", TDate); ("birthday_LT", TDate); ("birthday_GTE", TDate);
    ("birthday_LTE", TDate); ("birthday_IN", TList TDate);
    ("deathday_GT", TDate); ("deathday_LT", TDate); ("deathday_GTE", TDate);
    ("deathday_LTE", TDate); ("deathday_IN", TList TDate);
    ("gender", TInt); ("person_id", TInt);
    ("popularity_GT", TFloat); ("popularity_LT", TFloat);
    ("popularity_GTE", TFloat); ("popularity_LTE", TFloat);
    ("popularity_IN", TList TFloat) ].

(** Whether [c] is one of the characters of [chars]. *)
Fixpoint is_char_of (chars : string) (c : Ascii.ascii) : bool :=
  match chars with
  | "" => false
  | String d chars' => Ascii.eqb c d || is_char_of chars' c
  end.

Fixpoint all_chars (p : Ascii.ascii → bool) (s : string) : bool :=
  match s with
  | "" => true
  | String c s' => p c && all_chars p s'
  end.

(** The characters [String] gives for a finite number that is not an
    integer, and those [toString()] gives for a driver [Date]. *)
Definition float_char (c : Ascii.ascii) : bool := is_char_of "0123456789.e+-" c.
Definition date_char (c : Ascii.ascii) : bool := is_char_of "0123456789+-" c.

(** Whether a value is one GraphQL input coercion produces for the type. *)
Fixpoint has_type (t : gql_type) (v : jsval) : bool :=
  match t, v with
  | _, JNull => true
  | TBoolean, JBool _ => true
  | TInt, JNum _ => true
  | TFloat, JNum _ => true
  | TFloat, JFloat txt => all_chars float_char txt
  | TString, JStr _ => true
  | TDate, JDate iso => all_chars date_char iso
  | TList t', JArr l => forallb (has_type t') l
  | _, _ => false
  end.

(** A filter as GraphQL validation lets it through for an input type: every
    entry is a declared field with a value of the declared type. *)
Definition typed (declared : list (string * gql_type)) (filter : Filter) : Prop :=
  ∀ x v, (x, v) ∈ filter → ∃ ty, (x, ty) ∈ declared ∧ has_type ty v = true.

(** ** What the driver returns *)

(** Addresses of the [properties] objects of the returned nodes.  A node
    that two segments share is one object, so what [find_path] writes into
    the properties of a project is seen through every reference to it. *)
Definition loc := nat.

(** The driver's [Node]. *)
Record Node := {
  identity : Z;
  labels : list string;
  node_properties : loc;
}.

(** The driver's [Relationship]; [rel_start] and [rel_end] are the
    identities of the nodes the stored edge leaves and enters. *)
Record Relationship := {
  rel_start : Z;
  rel_end : Z;
  rel_type : string;
  rel_properties : obj;
}.

(** The driver's [PathSegment]: [seg_start] and [seg_end] are in the order
    the path is walked, whichever way the stored edge points. *)
Record PathSegment := {
  seg_start : Node;
  seg_relationship : Relationship;
  seg_end : Node;
}.

Record Path := {
  segments : list PathSegment;
}.

(** The result of [driver.executeQuery]: each record stands for what its
    [get(0)] gives, the path bound to [p]. *)
Record QueryResult := {
  records : list Path;
}.

(** One element of the array [find_path] resolves to.  [person] and
    [project] are references to properties objects, [relationship] is never
    written to and is kept by value. *)
Record PersonWithRelationships := {
  person : loc;
  relationship : obj;
  project : loc;
}.

(** The mutable part of a run: the properties objects, and the texts handed
    to the database so far ([executeQuery] and [session().run]). *)
Record State := {
  heap : gmap loc obj;
  submitted : list string;
}.

Definition deref (st : State) (l : loc) : obj := default ∅ (heap st !! l).

(** ** The path decomposer *)

(** The text of the show lookup for a project. *)
Definition show_query (project : obj) : string :=
  "MATCH (tvShow:TvShow{tv_id:" +:+ to_String (get_prop project "tv_show_id")
  +:+ "}) RETURN tvShow".

(** [if (project.hasOwnProperty("episode_id")) { ...; project.parent_show =
    parent_show; }] : the lookup is started and its promise, not its result,
    is stored. *)
Definition attach_parent_show (project : loc) (st : State) : State :=
  let o := deref st project in
  if hasOwnProperty o "episode_id" then
    let parent_show := JPromise (show_query o) in
    {| heap := <[project := <["parent_show" := parent_show]> o]> (heap st);
       submitted := submitted st ++ [show_query o] |}
  else st.

(** The body of the [for] loop, at index [i] on segment [seg]. *)
Definition loop_body (i : nat) (seg : PathSegment) (st : State)
    (results : list PersonWithRelationships)
  : State * list PersonWithRelationships :=
  if (i mod 2 =? 0)%nat then
    let project := node_properties (seg_end seg) in
    let st := attach_parent_show project st in
    (st, results ++ [ {| person := node_properties (seg_start seg);
                         relationship := rel_properties (seg_relationship seg);
                         project := project |} ])%list
  else
    let project := node_properties (seg_start seg) in
    let st := attach_parent_show project st in
    (st, results ++ [ {| person := node_properties (seg_end seg);
                         relationship := rel_properties (seg_relationship seg);
                         project := project |} ])%list.

(** The [for] loop from index [i] on, over the segments not visited yet. *)
Fixpoint loop (i : nat) (segs : list PathSegment) (st : State)
    (results : list PersonWithRelationships)
  : State * list PersonWithRelationships :=
  match segs with
  | [] => (st, results)
  | seg :: rest =>
      let '(st, results) := loop_body i seg st results in
      loop (S i) rest st results
  end.

(** The callback [find_path] passes to [then]: [res.records[0]] is
    [undefined] when the result has no record, and calling [get] on it
    throws. *)
Definition find_path_then (res : QueryResult) (st : State)
  : completion (State * list PersonWithRelationships) :=
  match records res with
  | [] => Thrown TypeError
  | record :: _ => Returned (loop 0 (segments record) st [])
  end.

(** The resolver.  [executeQuery] stands for the driver: given the query
    text it rejects, or resolves to a result whose node properties live in
    the heap it returns with it.  The outcome is the final state and what
    the promise returned by [find_path] settles to. *)
Definition find_path
    (executeQuery : string → completion (gmap loc obj * QueryResult))
    (_args : PathArgs)
  : State * completion (list PersonWithRelationships) :=
  let st := {| heap := ∅; submitted := [] |} in
  match build_query _args with
  | Thrown e => (st, Thrown e)
  | Returned query =>
      match executeQuery query with
      | Thrown e => ({| heap := ∅; submitted := [query] |}, Thrown e)
      | Returned (h, res) =>
          let st := {| heap := h; submitted := [query] |} in
          match find_path_then res st with
          | Thrown e => (st, Thrown e)
          | Returned (st', results) => (st', Returned results)
          end
      end
  end.

(** The callback of the show lookup, [res => res.records[0].get(0).properties],
    on the properties of the nodes the lookup found. *)
Definition parent_show_then (found : list obj) : completion jsval :=
  match found with
  | [] => Thrown TypeError
  | tvShow :: _ => Returned (JObj tvShow)
  end.

(** What a stored promise settles to, given the database's answer to show
    lookups: [Returned] is fulfilment, [Thrown] is rejection. *)
Definition settle (run : string → completion (list obj)) (p : jsval)
  : option (completion jsval) :=
  match p with
  | JPromise q => Some (found ← run q; parent_show_then found)
  | _ => None
  end.

(** ** The union resolvers *)

Module Relationship.
Definition __resolveType (o : obj) : jsval :=
  if truthy (get_prop o "character") then JStr "castObj"
  else if truthy (get_prop o "department") then JStr "crewObj"
  else JStr "Credit".
End Relationship.

Module MovieOrTvEpisode.
Definition __resolveType (o : obj) : jsval :=
  if truthy (get_prop o "movie_id") then JStr "Movie"
  else if truthy (get_prop o "tv_show_id") then JStr "TvEpisode"
  else JNull.
End MovieOrTvEpisode.

(** ** Reading the emitted text *)

(** [occurs t s] : the text [t] is a contiguous part of [s]. *)
Definition occurs (t s : string) : Prop := ∃ a b, s = a +:+ t +:+ b.

(** [s.includes(t)], the decision procedure for [occurs t s]. *)
Fixpoint includes (s t : string) : bool :=
  String.prefix t s ||
  match s with
  | "" => false
  | String _ s' => includes s' t
  end.

(** The last character of a text. *)
Fixpoint last_char (s : string) : option Ascii.ascii :=
  match s with
  | "" => None
  | String c "" => Some c
  | String _ s' => last_char s'
  end.

(** [x.split(sep)[0]] computed directly: the text before the first
    occurrence of [sep]. *)
Fixpoint before (sep s : string) : string :=
  match s with
  | "" => ""
  | String c s' => if String.prefix sep s then "" else String c (before sep s')
  end.

(** The filter constraints of the data model, the reading of the text
    [create_filter] emits for one entry: a comparison of [r.field] with an
    operand, or the chained comparison [lo <= r.field <= hi]. *)
Inductive operator := EQ | GT | LT | GTE | LTE.

Inductive constraint :=
| Compare (field : string) (op : operator) (operand : jsval)
| RANGE (lo : jsval) (field : string) (hi : jsval).

Definition operator_symbol (op : operator) : string :=
  match op with
  | EQ => "="
  | GT => ">"
  | LT => "<"
  | GTE => ">="
  | LTE => "<="
  end.

Definition render_constraint (c : constraint) : string :=
  match c with
  | Compare field op operand =>
      "r." +:+ field +:+ " " +:+ operator_symbol op +:+ " " +:+ to_String operand
  | RANGE lo field hi =>
      to_String lo +:+ " <= r." +:+ field +:+ " <= " +:+ to_String hi
  end.

Definition compare_Z (op : operator) (v k : Z) : bool :=
  match op with
  | EQ => (v =? k)%Z
  | GT => (k <? v)%Z
  | LT => (v <? k)%Z
  | GTE => (k <=? v)%Z
  | LTE => (v <=? k)%Z
  end.

(** Whether a node whose field holds the integer [v] meets a constraint
    with integer operands; Cypher reads [a <= x <= b] as
    [a <= x AND x <= b].  Other operands are left uninterpreted. *)
Definition constraint_holds (c : constraint) (v : Z) : option bool :=
  match c with
  | Compare _ op (JNum k) => Some (compare_Z op v k)
  | RANGE (JNum lo) _ (JNum hi) => Some ((lo <=? v)%Z && (v <=? hi)%Z)
  | _ => None
  end.



(** Cypher's truth values. *)
Inductive tri := TRUE | FALSE | NULL.

Definition tri_and (a b : tri) : tri :=
  match a, b with
  | FALSE, _ | _, FALSE => FALSE
  | TRUE, TRUE => TRUE
  | _, _ => NULL
  end.

Definition tri_or (a b : tri) : tri :=
  match a, b with
  | TRUE, _ | _, TRUE => TRUE
  | FALSE, FALSE => FALSE
  | _, _ => NULL
  end.

(** The comparisons of a [WHERE] text: one emitted by [create_filter], taken
    as a unit, or the test [r.person_id = id] that [build_query] adds. *)
Inductive comparison :=
| Emitted (text : string)
| PersonIdIs (id : Z).

(** A [WHERE] text without parentheses: [OR] binds weaker than [AND], so it
    is a disjunction of conjunctions of comparisons. *)
Definition where_text := list (list comparison).

Definition render_comparison (c : comparison) : string :=
  match c with
  | Emitted text => text
  | PersonIdIs id => "r.person_id = " +:+ pretty id
  end.

Definition render_where (w : where_text) : string :=
  String.concat " OR "
    (map (λ conj, String.concat " AND " (map render_comparison conj)) w).

(** The value of a [WHERE] text on a node [r] with the given [person_id];
    [emitted] gives the value of each emitted comparison on [r]. *)
Definition eval_comparison (emitted : string → tri) (person_id : Z)
    (c : comparison) : tri :=
  match c with
  | Emitted text => emitted text
  | PersonIdIs id => if bool_decide (person_id = id) then TRUE else FALSE
  end.

Definition eval_where (emitted : string → tri) (person_id : Z)
    (w : where_text) : tri :=
  foldr (λ conj acc,
           tri_or (foldr (λ c acc', tri_and (eval_comparison emitted person_id c) acc')
                         TRUE conj) acc)
        FALSE w.

(** The constraint [build_query] places on the [Person] nodes of the path,
    for the texts [create_filter] pushed for the person filter. *)
Definition person_constraint (pushed : list string) (first second : Z) : where_text :=
  [ map Emitted pushed; [PersonIdIs first]; [PersonIdIs second] ].

(** Characters with a part in the nesting of Cypher text that [scan] does
    not follow: a text that uses them outside a quoted string is given up. *)
Definition unfollowed (c : Ascii.ascii) : bool :=
  is_char_of "'`[]{}/" c || Ascii.eqb c (Ascii.ascii_of_nat 92).

(** Follows the parentheses (characters 40 and 41) and the double-quoted
    strings (character 34) of a text, from a nesting [depth] and inside a
    string or not; a backslash (character 92) inside a string is given up
    as well. *)
Fixpoint scan (s : string) (depth : nat) (quoted : bool) : option (nat * bool) :=
  match s with
  | "" => Some (depth, quoted)
  | String c s' =>
      if quoted then
        if Ascii.eqb c (Ascii.ascii_of_nat 34) then scan s' depth false
        else if Ascii.eqb c (Ascii.ascii_of_nat 92) then None
        else scan s' depth true
      else if Ascii.eqb c (Ascii.ascii_of_nat 34) then scan s' depth true
      else if Ascii.eqb c (Ascii.ascii_of_nat 40) then scan s' (S depth) false
      else if Ascii.eqb c (Ascii.ascii_of_nat 41) then
             match depth with
             | O => None
             | S d => scan s' d false
             end
      else if unfollowed c then None
      else scan s' depth false
  end.

(** A text that closes what it opens: wherever it is placed, the text
    after it is at the nesting level of the text before it. *)
Definition self_contained (s : string) : Prop :=
  ∀ depth, scan s depth false = Some (depth, false).

(** A character without a part in the nesting, and a text of such. *)
Definition plain_char (c : Ascii.ascii) : bool :=
  negb (Ascii.eqb c (Ascii.ascii_of_nat 34) || Ascii.eqb c (Ascii.ascii_of_nat 92)
        || Ascii.eqb c (Ascii.ascii_of_nat 40) || Ascii.eqb c (Ascii.ascii_of_nat 41) || unfollowed c).

Definition plain (s : string) : bool := all_chars plain_char s.

(** The operand types without text of the caller's: no strings, no lists. *)
Definition plain_type (t : gql_type) : bool :=
  match t with
  | TBoolean | TInt | TFloat | TDate => true
  | TString | TList _ => false
  end.

(** The kind of a node, by its labels. *)
Inductive node_kind := KPerson | KProject | KOther.

Definition kind (n : Node) : node_kind :=
  if bool_decide ("Person" ∈ labels n) then KPerson
  else if bool_decide ("Movie" ∈ labels n) || bool_decide ("TvEpisode" ∈ labels n)
       then KProject
       else KOther.

(** The structural invariant of the graph: a segment joins one [Person] and
    one project. *)
Definition joins_person_and_project (seg : PathSegment) : Prop :=
  (kind (seg_start seg) = KPerson ∧ kind (seg_end seg) = KProject) ∨
  (kind (seg_start seg) = KProject ∧ kind (seg_end seg) = KPerson).

(** A path as the driver builds it: each segment starts at the node the one
    before it ended at. *)
Definition chained (segs : list PathSegment) : Prop :=
  ∀ i s t, segs !! i = Some s → segs !! S i = Some t → seg_end s = seg_start t.

(** The triple the loop pushes for the segment at index [i]. *)
Definition triple_at (i : nat) (seg : PathSegment) : PersonWithRelationships :=
  if (i mod 2 =? 0)%nat then
    {| person := node_properties (seg_start seg);
       relationship := rel_properties (seg_relationship seg);
       project := node_properties (seg_end seg) |}
  else
    {| person := node_properties (seg_end seg);
       relationship := rel_properties (seg_relationship seg);
       project := node_properties (seg_start seg) |}.

(** What the enrichment leaves in place of a project's properties. *)
Definition enriched (o : obj) : obj :=
  if hasOwnProperty o "episode_id"
  then <["parent_show" := JPromise (show_query o)]> o
  else o.

(** What the specification asks of the attachment once the call has
    returned: the show's record, or [null]. *)
Definition show_record_or_null (v : jsval) : Prop :=
  v = JNull ∨ ∃ tvShow, v = JObj tvShow.

(** ** Sample inputs *)

(** The arguments, paths and heaps at which the properties below are
    exercised. *)

(** An injected operand: the [status] of the movie filter closes the
    comparison it belongs to and adds a disjunct of its own. *)
Definition injected_operand : string := "1 OR true".

Definition injected_args : PathArgs :=
  {| first_person_id := 1;
     second_person_id := 2;
     filters := Some {| movie_filter := Some [("status", JStr injected_operand)];
                        tv_filter := None;
                        person_filter := None |} |}.

Definition filtered_args : PathArgs :=
  {| first_person_id := 4724;
     second_person_id := 287;
     filters := Some {| movie_filter := None;
                        tv_filter := None;
                        person_filter := Some [("gender", JNum 1); ("popularity_GT", JFloat "7.5")] |} |}.

(** A database in which no path qualifies: every query resolves to a result
    without records. *)
Definition no_path (query : string) : completion (gmap loc obj * QueryResult) :=
  Returned (∅, {| records := [] |}).


Definition null_range_args : PathArgs :=
  {| first_person_id := 1;
     second_person_id := 2;
     filters := Some {| movie_filter := Some [("budget_IN", JNull)];
                        tv_filter := None;
                        person_filter := None |} |}.

Definition a_movie : obj :=
  {[ "movie_id" := JInteger 603; "title" := JStr "The Matrix" ]}.

Definition an_episode : obj :=
  {[ "episode_id" := JInteger 3659603; "tv_show_id" := JInteger 155513 ]}.

(** Two people joined by an episode: the first is in its cast, the second
    in its crew.  Both stored edges leave the person, so the second segment
    is walked against its edge. *)
Definition keanu : Node :=
  {| identity := 10; labels := ["Person"]; node_properties := 0 |}.
Definition pilot : Node :=
  {| identity := 20; labels := ["TvEpisode"]; node_properties := 1 |}.
Definition carrie : Node :=
  {| identity := 30; labels := ["Person"]; node_properties := 2 |}.

Definition cast_edge : Relationship :=
  {| rel_start := 10; rel_end := 20; rel_type := "CAST_FOR";
     rel_properties := {[ "character" := JStr "Host"; "credit_id" := JStr "c1" ]} |}.
Definition crew_edge : Relationship :=
  {| rel_start := 30; rel_end := 20; rel_type := "CREW_FOR";
     rel_properties := {[ "department" := JStr "Writing"; "job" := JStr "Writer";
                          "credit_id" := JStr "c2" ]} |}.

Definition episode_path : Path :=
  {| segments := [ {| seg_start := keanu; seg_relationship := cast_edge; seg_end := pilot |};
                   {| seg_start := pilot; seg_relationship := crew_edge; seg_end := carrie |} ] |}.

Definition pilot_properties : obj :=
  {[ "episode_id" := JInteger 3659603; "tv_show_id" := JInteger 155513;
     "title" := JStr "Pilot" ]}.

Definition episode_heap : gmap loc obj :=
  {[ 0 := {[ "person_id" := JInteger 6384; "name" := JStr "Keanu" ]};
     1 := pilot_properties;
     2 := {[ "person_id" := JInteger 530; "name" := JStr "Carrie" ]} ]}.

Definition episode_state : State := {| heap := episode_heap; submitted := [] |}.

(** A segment that joins two people. *)
Definition person_to_person : PathSegment :=
  {| seg_start := keanu;
     seg_relationship := {| rel_start := 10; rel_end := 30; rel_type := "KNOWS";
                            rel_properties := ∅ |};
     seg_end := carrie |}.

(** ** The entity types and unions of the schema *)

(** The stored properties that [type Movie], [type TvEpisode] and
    [type Person] declare in [typeDefs]; the relationship fields and the
    computed [parent_show] are not properties of the nodes and are left
    out. *)
Definition Movie : list (string * gql_type) :=
  [ ("title", TString); ("adult", TBoolean); ("budget", TInt);
    ("poster_path", TString); ("revenue", TInt); ("genres", TList TString);
    ("imdb_id", TString); ("movie_id", TInt);
    ("production_companies", TList TInt); ("spoken_languages", TList TString);
    ("release_date", TDate); ("status", TString); ("runtime", TInt) ].

Definition TvEpisode : list (string * gql_type) :=
  [ ("air_date", TDate); ("episode_id", TInt); ("vote_average", TFloat);
    ("tv_show_id", TInt); ("title", TString); ("season", TInt);
    ("runtime", TInt); ("episode", TInt); ("vote_count", TInt) ].

Definition Person : list (string * gql_type) :=
  [ ("name", TString); ("adult", TBoolean); ("birthday", TDate);
    ("deathday", TDate); ("gender", TInt); ("imdb_id", TString);
    ("person_id", TInt); ("popularity", TFloat); ("image_path", TString) ].

(** [union Relationship = castObj | crewObj | Credit] and
    [union MovieOrTvEpisode = Movie | TvEpisode]. *)
Definition Relationship_members : list string := ["castObj"; "crewObj"; "Credit"].
Definition MovieOrTvEpisode_members : list string := ["Movie"; "TvEpisode"].



(** A declared field whose values bring no text of the caller's into the
    query: a plain name, with a list of a plain type under [_IN], and a
    plain type or a list of one elsewhere. *)
Definition closed_field (field : string * gql_type) : bool :=
  plain field.1 &&
  match field.2 with
  | TList ty' => plain_type ty'
  | ty => negb (endsWith field.1 "_IN") && plain_type ty
  end.

(** The fields of [MovieFilter] with [String] operands. *)
Definition text_fields : list string :=
  ["imdb_id"; "status"; "genres"; "spoken_languages"].

(** ** The [PersonWithRelationships] resolvers *)

Module PersonWithRelationships_resolvers.
Definition person (o : PersonWithRelationships) : loc := person o.
Definition relationship (o : PersonWithRelationships) : obj := relationship o.
Definition project (o : PersonWithRelationships) : loc := project o.
End PersonWithRelationships_resolvers.

(** ** The [test] resolver *)

Definition test_episode_query : string :=
  "MATCH (p:TvEpisode{episode_id: 3659603}) RETURN p LIMIT 1".

Definition test_show_query : string :=
  "MATCH (tvShow:TvShow{tv_id:155513}) RETURN tvShow".

(** [labels[0] == "TvEpisode"], the value handed to [console.log]. *)
Definition first_label_is_TvEpisode (n : Node) : bool :=
  match labels n with
  | label :: _ => String.eqb label "TvEpisode"
  | [] => false
  end.

(** The callback [test] passes to [then], on the nodes the episode lookup
    found: it returns the reference to the first node's properties, what it
    logged, and the state after the write of [parent_show]. *)
Definition test_then (found : list Node) (st : State)
  : completion (State * bool * loc) :=
  match found with
  | [] => Thrown TypeError
  | p :: _ =>
      let properties := node_properties p in
      let logged := first_label_is_TvEpisode p in
      let parent_show := JPromise test_show_query in
      Returned
        ({| heap := <[properties := <["parent_show" := parent_show]> (deref st properties)]>
                      (heap st);
            submitted := submitted st ++ [test_show_query] |},
         logged, properties)
  end.

(** The resolver: [run] stands for [driver.session().run], giving the nodes
    found together with the heap their properties live in. *)
Definition test (run : string → completion (gmap loc obj * list Node))
  : State * completion (bool * loc) :=
  match run test_episode_query with
  | Thrown e => ({| heap := ∅; submitted := [test_episode_query] |}, Thrown e)
  | Returned (h, found) =>
      let st := {| heap := h; submitted := [test_episode_query] |} in
      match test_then found st with
      | Thrown e => (st, Thrown e)
      | Returned (st', logged, properties) => (st', Returned (logged, properties))
      end
  end.

(** ** The request handler *)

(** [s.toLowerCase()] on ASCII text; Node keeps the headers of a response
    under their lower-cased names. *)
Definition lower_char (c : Ascii.ascii) : Ascii.ascii :=
  let n := Ascii.nat_of_ascii c in
  if (65 <=? n)%nat && (n <=? 90)%nat then Ascii.ascii_of_nat (n + 32) else c.

Fixpoint toLowerCase (s : string) : string :=
  match s with
  | "" => ""
  | String c s' => String (lower_char c) (toLowerCase s')
  end.

Record Request := {
  method : string;
}.

(** The part of a [ServerResponse] the handler touches. *)
Record Response := {
  headers : gmap string string;
  writableEnded : bool;
}.

(** [res.setHeader(name, value)] and [res.getHeader(name)] *)
Definition setHeader (name value : string) (res : Response) : Response :=
  {| headers := <[toLowerCase name := value]> (headers res);
     writableEnded := writableEnded res |}.

Definition getHeader (name : string) (res : Response) : option string :=
  headers res !! toLowerCase name.

(** [res.end()] *)
Definition end_response (res : Response) : Response :=
  {| headers := headers res; writableEnded := true |}.

(** [handler].  [serve] stands for the last four statements: building the
    schema, starting the Apollo server and running its handler for the path
    [/api/graphql] on the request and the response; it gives the response
    as it leaves it and whether it threw. *)
Definition handler (serve : Request → Response → Response * completion ())
    (req : Request) (res : Response) : Response * completion jsval :=
  let res := setHeader "Access-Control-Allow-Credentials" "true" res in
  let res := setHeader "Access-Control-Allow-Origin" "https://studio.apollographql.com" res in
  let res := setHeader "Access-Control-Allow-Headers"
               "Origin, X-Requested-With, Content-Type, Accept" res in
  if String.eqb (method req) "OPTIONS" then
    (end_response res, Returned (JBool false))
  else
    match serve req res with
    | (res', Returned _) => (res', Returned JUndefined)
    | (res', Thrown e) => (res', Thrown e)
    end.

(** ** The earlier version of the resolvers *)

(** The unnamed earlier version of the file: [find_path] takes the three
    filters as ready-made Cypher texts and builds the query itself, the
    decomposition does not look up shows, and a relationship without
    [character] and [department] resolves to [null]. *)
Module Earlier.

Record PathArgs := {
  first_person_id : Z;
  second_person_id : Z;
  movie_filter : option string;
  tv_filter : option string;
  person_filter : option string;
}.

(** [if (f)] on a text that may be missing. *)
Definition given (f : option string) : bool :=
  match f with
  | Some text => truthy (JStr text)
  | None => false
  end.

(** The query text [find_path] builds before it calls [executeQuery]. *)
Definition find_path_query (_args : PathArgs) : string :=
  let query := match_text (first_person_id _args) (second_person_id _args) in
  let query :=
    if given (person_filter _args) || given (movie_filter _args)
       || given (tv_filter _args)
    then query +:+ " WHERE "
    else query in
  let filters := [] in
  let filters := push_clause (movie_filter _args) Movie_clause filters in
  let filters := push_clause (tv_filter _args) TvEpisode_clause filters in
  let filters :=
    push_clause (person_filter _args)
      (Person_clause (first_person_id _args) (second_person_id _args)) filters in
  let query := query +:+ String.concat " AND " filters in
  query +:+ " RETURN p".

(** The [for] loop of the callback, from index [i] on. *)
Fixpoint loop (i : nat) (segs : list PathSegment)
    (results : list PersonWithRelationships) : list PersonWithRelationships :=
  match segs with
  | [] => results
  | seg :: rest =>
      let pushed :=
        if (i mod 2 =? 0)%nat then
          {| person := node_properties (seg_start seg);
             relationship := rel_properties (seg_relationship seg);
             project := node_properties (seg_end seg) |}
        else
          {| person := node_properties (seg_end seg);
             relationship := rel_properties (seg_relationship seg);
             project := node_properties (seg_start seg) |} in
      loop (S i) rest (results ++ [pushed])
  end.

Definition find_path_then (res : QueryResult)
  : completion (list PersonWithRelationships) :=
  match records res with
  | [] => Thrown TypeError
  | record :: _ => Returned (loop 0 (segments record) [])
  end.

(** The resolver: the texts submitted and what the promise settles to. *)
Definition find_path (executeQuery : string → completion QueryResult)
    (_args : PathArgs) : list string * completion (list PersonWithRelationships) :=
  let query := find_path_query _args in
  ([query], res ← executeQuery query; find_path_then res).

Definition Relationship__resolveType (o : obj) : jsval :=
  if truthy (get_prop o "character") then JStr "castObj"
  else if truthy (get_prop o "department") then JStr "crewObj"
  else JNull.

End Earlier.

(** The arguments of the earlier [find_path] that carry the texts compiled
    from the filters of the current one. *)
Definition earlier_args (_args : PathArgs)
    (MovieFilter TvFilter PersonFilter : option string) : Earlier.PathArgs :=
  {| Earlier.first_person_id := first_person_id _args;
     Earlier.second_person_id := second_person_id _args;
     Earlier.movie_filter := MovieFilter;
     Earlier.tv_filter := TvFilter;
     Earlier.person_filter := PersonFilter |}.

(** The category filters an argument record supplies. *)
Definition supplied (_args : PathArgs) : list Filter :=
  omap id [ filters _args ≫= movie_filter;
            filters _args ≫= tv_filter;
            filters _args ≫= person_filter ].

(** An entry on which the loop of [create_filter] throws: its name ends in
    [_IN] and its value is [null] or [undefined]. *)
Definition unindexable (entry : string * jsval) : bool :=
  endsWith entry.1 "_IN" &&
  match entry.2 with
  | JNull | JUndefined => true
  | _ => false
  end.

(** Whether the properties of a project make [find_path] look up a show. *)
Definition is_episode (o : obj) : bool := hasOwnProperty o "episode_id".


(** The text of one element in the text of an array. *)
Definition element_text (e : jsval) : string :=
  match e with
  | JUndefined | JNull => ""
  | _ => to_String e
  end.

(** The input types with the entity type their clause ranges over. *)
Definition filter_inputs : list (list (string * gql_type) * list (string * gql_type)) :=
  [ (MovieFilter, Movie); (TvFilter, TvEpisode); (PersonFilter, Person) ].

(** The show lookups [find_path] starts for a list of triples whose
    projects have the properties that [h] holds: one for every triple whose
    project is an episode, in the order of the triples. *)
Definition show_lookups (h : gmap loc obj)
    (results : list PersonWithRelationships) : list string :=
  omap (λ t, let o := default ∅ (h !! project t) in
             if is_episode o then Some (show_query o) else None)
       results.

(** The suffixes [create_filter] knows. *)
Definition suffixes : list string := ["_GT"; "_LT"; "_GTE"; "_LTE"; "_IN"].

(** The field [create_filter] compares for a name: the text before the
    first occurrence of the suffix the name ends in, as [x.split(suffix)[0]]
    gives it; the name itself when it ends in none. *)
Definition compared_field (x : string) : string :=
  if endsWith x "_GT" then before "_GT" x
  else if endsWith x "_LT" then before "_LT" x
  else if endsWith x "_GTE" then before "_GTE" x
  else if endsWith x "_LTE" then before "_LTE" x
  else if endsWith x "_IN" then before "_IN" x
  else x.

(** * Facts about texts *)

Section texts.
Implicit Types s t a b p suffix sep : string.

Lemma app_cons c s t : String c s +:+ t = String c (s +:+ t).
Proof. reflexivity. Qed.

Lemma app_empty_l s : "" +:+ s = s.
Proof. reflexivity. Qed.

Lemma app_empty_r s : s +:+ "" = s.
Proof. induction s as [|c s IH]; [done|]. by rewrite app_cons, IH. Qed.

Lemma app_assoc_text a b c : (a +:+ b) +:+ c = a +:+ b +:+ c.
Proof. induction a as [|x a IH]; [done|]. by rewrite !app_cons, IH. Qed.

Lemma length_app_text a b :
  String.length (a +:+ b) = String.length a + String.length b.
Proof. induction a as [|x a IH]; [done|]. rewrite app_cons. simpl. by rewrite IH. Qed.

Lemma prefix_app t b : String.prefix t (t +:+ b) = true.
Proof.
  induction t as [|c t IH]; [by destruct b|].
  rewrite app_cons. simpl. by destruct (Ascii.ascii_dec c c).
Qed.

Lemma prefix_inv t s : String.prefix t s = true → ∃ b, s = t +:+ b.
Proof.
  revert s. induction t as [|c t IH]; intros s H.
  - by exists s.
  - destruct s as [|d s]; [done|]. simpl in H.
    destruct (Ascii.ascii_dec c d) as [->|]; [|done].
    destruct (IH _ H) as [b ->]. by exists b.
Qed.

Lemma occurs_refl s : occurs s s.
Proof. exists "", "". by rewrite app_empty_r. Qed.

Lemma occurs_app_l t a s : occurs t s → occurs t (a +:+ s).
Proof. intros (x & y & ->). exists (a +:+ x), y. by rewrite app_assoc_text. Qed.

Lemma occurs_app_r t s b : occurs t s → occurs t (s +:+ b).
Proof.
  intros (x & y & ->). exists x, (y +:+ b). by rewrite !app_assoc_text.
Qed.

Lemma occurs_trans t s u : occurs t s → occurs s u → occurs t u.
Proof. intros Hts (x & y & ->). by apply occurs_app_l, occurs_app_r. Qed.

Lemma occurs_concat sep x (l : list string) :
  x ∈ l → occurs x (String.concat sep l).
Proof.
  induction 1 as [x l|x y l Hx IH].
  - destruct l as [|z l]; simpl; [apply occurs_refl|].
    apply occurs_app_r, occurs_refl.
  - destruct l as [|z l]; [by apply elem_of_nil in Hx|].
    change (String.concat sep (y :: z :: l))
      with (y +:+ sep +:+ String.concat sep (z :: l)).
    by do 2 apply occurs_app_l.
Qed.

Lemma includes_occurs s t : includes s t = true ↔ occurs t s.
Proof.
  split.
  - induction s as [|c s IH]; cbn [includes].
    + rewrite orb_false_r. intros [b ->]%prefix_inv. exists "", b. done.
    + intros [[b ->]%prefix_inv|H]%orb_true_iff.
      * by exists "", b.
      * apply (occurs_app_l _ (String c "")). auto.
  - intros (a & b & ->). induction a as [|c a IH].
    + rewrite app_empty_l.
      destruct (t +:+ b) eqn:E; cbn [includes]; rewrite <- ?E, prefix_app; done.
    + rewrite app_cons. cbn [includes]. rewrite IH. apply orb_true_r.
Qed.

Lemma endsWith_app p suffix : endsWith (p +:+ suffix) suffix = true.
Proof.
  induction p as [|c p IH].
  - rewrite app_empty_l. destruct suffix; cbn [endsWith]; by rewrite String.eqb_refl.
  - rewrite app_cons. cbn [endsWith]. rewrite IH. apply orb_true_r.
Qed.

Lemma endsWith_inv s suffix : endsWith s suffix = true → ∃ p, s = p +:+ suffix.
Proof.
  induction s as [|c s IH]; cbn [endsWith].
  - rewrite orb_false_r. intros ->%String.eqb_eq. by exists "".
  - intros [->%String.eqb_eq|H]%orb_true_iff; [by exists ""|].
    destruct (IH H) as [p ->]. by exists (String c p).
Qed.

Lemma last_char_app p suffix :
  suffix ≠ "" → last_char (p +:+ suffix) = last_char suffix.
Proof.
  intros Hne. induction p as [|c p IH]; [done|].
  rewrite app_cons. simpl. rewrite IH.
  destruct (p +:+ suffix) eqn:E; [|done].
  destruct p; [by rewrite app_empty_l in E|done].
Qed.

Lemma endsWith_last_char s suffix :
  endsWith s suffix = true → suffix ≠ "" → last_char s = last_char suffix.
Proof. intros [p ->]%endsWith_inv ?. by apply last_char_app. Qed.

Lemma split_go_nonempty sep k s : split_go sep k s ≠ [].
Proof.
  revert k. induction s as [|c s IH]; intros k; [done|].
  cbn [split_go]. destruct k; [|apply IH].
  destruct (String.prefix sep (String c s)); [done|].
  by destruct (split_go sep 0 s).
Qed.

Lemma first_piece_split sep s : first_piece (split sep s) = before sep s.
Proof.
  unfold split. induction s as [|c s IH]; [done|].
  cbn [split_go before].
  destruct (String.prefix sep (String c s)); [done|].
  destruct (split_go sep 0 s) eqn:E; [by apply split_go_nonempty in E|].
  simpl in *. by rewrite IH.
Qed.
End texts.

Section suffixes.
Implicit Types s t a b p suffix sep base : string.

Lemma app_same_length_suffix a s b t :
  a +:+ s = b +:+ t → String.length s = String.length t → s = t.
Proof.
  revert b. induction a as [|c a IH]; intros [|d b] H Hlen.
  - done.
  - rewrite app_empty_l in H. subst s. rewrite length_app_text in Hlen.
    simpl in Hlen. lia.
  - rewrite app_empty_l in H. subst t. rewrite length_app_text in Hlen.
    simpl in Hlen. lia.
  - rewrite !app_cons in H. injection H as _ H. eauto.
Qed.

(** When [sep] occurs in [base +:+ sep] only at the very end, splitting
    at [sep] gives back [base]. *)
Lemma before_app sep base :
  (∀ a b, base +:+ sep = a +:+ sep +:+ b → b = "") →
  before sep (base +:+ sep) = base.
Proof.
  induction base as [|c base IH]; intros Hlast.
  - rewrite app_empty_l. destruct sep as [|d sep]; [done|].
    cbn [before]. replace (String d sep) with (String d sep +:+ "") at 2
      by apply app_empty_r.
    by rewrite prefix_app.
  - rewrite app_cons. cbn [before].
    destruct (String.prefix sep (String c (base +:+ sep))) eqn:Hpre.
    + apply prefix_inv in Hpre as [b Hb].
      pose proof (Hlast "" b Hb) as ->. rewrite app_empty_r in Hb.
      apply (f_equal String.length) in Hb. simpl in Hb.
      rewrite length_app_text in Hb. lia.
    + f_equal. apply IH. intros a b Hab. apply (Hlast (String c a) b).
      by rewrite !app_cons, Hab.
Qed.
End suffixes.


Section literal_suffixes.
Implicit Types a b base : string.

Lemma length_zero_text b : String.length b = 0 → b = "".
Proof. by destruct b. Qed.

Lemma app_eq_self_l a b : a = a +:+ b → b = "".
Proof.
  intros H. apply (f_equal String.length) in H.
  rewrite length_app_text in H. apply length_zero_text. lia.
Qed.

(** The inductive step shared by the five suffixes: an occurrence that
    starts after the first character is an occurrence in the tail. *)
Lemma only_at_end_step sep c a base b :
  (∀ base b, base +:+ sep = a +:+ sep +:+ b → b = "" ∨ occurs sep base) →
  base +:+ sep = String c a +:+ sep +:+ b → b = "" ∨ occurs sep base.
Proof.
  intros IH H. destruct base as [|d base].
  - apply (f_equal String.length) in H.
    rewrite app_empty_l, app_cons in H. simpl in H.
    rewrite !length_app_text in H. lia.
  - rewrite !app_cons in H. injection H as -> H.
    destruct (IH _ _ H) as [?|Hocc]; [by left|right].
    by apply (occurs_app_l _ (String c "")).
Qed.

Lemma GT_only_at_end a base b :
  base +:+ "_GT" = a +:+ "_GT" +:+ b → b = "" ∨ occurs "_GT" base.
Proof.
  revert base b. induction a as [|c a IH]; intros base b H;
    [|by eapply only_at_end_step].
  rewrite app_empty_l in H. destruct base as [|c1 [|c2 [|c3 base]]];
    rewrite ?app_cons, ?app_empty_l in H; try discriminate H.
  - left. by eapply (app_eq_self_l "_GT").
  - right. injection H as -> -> -> _. by exists "", base.
Qed.

Lemma LT_only_at_end a base b :
  base +:+ "_LT" = a +:+ "_LT" +:+ b → b = "" ∨ occurs "_LT" base.
Proof.
  revert base b. induction a as [|c a IH]; intros base b H;
    [|by eapply only_at_end_step].
  rewrite app_empty_l in H. destruct base as [|c1 [|c2 [|c3 base]]];
    rewrite ?app_cons, ?app_empty_l in H; try discriminate H.
  - left. by eapply (app_eq_self_l "_LT").
  - right. injection H as -> -> -> _. by exists "", base.
Qed.

Lemma IN_only_at_end a base b :
  base +:+ "_IN" = a +:+ "_IN" +:+ b → b = "" ∨ occurs "_IN" base.
Proof.
  revert base b. induction a as [|c a IH]; intros base b H;
    [|by eapply only_at_end_step].
  rewrite app_empty_l in H. destruct base as [|c1 [|c2 [|c3 base]]];
    rewrite ?app_cons, ?app_empty_l in H; try discriminate H.
  - left. by eapply (app_eq_self_l "_IN").
  - right. injection H as -> -> -> _. by exists "", base.
Qed.

Lemma GTE_only_at_end a base b :
  base +:+ "_GTE" = a +:+ "_GTE" +:+ b → b = "" ∨ occurs "_GTE" base.
Proof.
  revert base b. induction a as [|c a IH]; intros base b H;
    [|by eapply only_at_end_step].
  rewrite app_empty_l in H. destruct base as [|c1 [|c2 [|c3 [|c4 base]]]];
    rewrite ?app_cons, ?app_empty_l in H; try discriminate H.
  - left. by eapply (app_eq_self_l "_GTE").
  - right. injection H as -> -> -> -> _. by exists "", base.
Qed.

Lemma LTE_only_at_end a base b :
  base +:+ "_LTE" = a +:+ "_LTE" +:+ b → b = "" ∨ occurs "_LTE" base.
Proof.
  revert base b. induction a as [|c a IH]; intros base b H;
    [|by eapply only_at_end_step].
  rewrite app_empty_l in H. destruct base as [|c1 [|c2 [|c3 [|c4 base]]]];
    rewrite ?app_cons, ?app_empty_l in H; try discriminate H.
  - left. by eapply (app_eq_self_l "_LTE").
  - right. injection H as -> -> -> -> _. by exists "", base.
Qed.

(** [x.split(suffix)[0]] strips the suffix from a name that does not
    contain it earlier. *)
Lemma strip_suffix suffix base :
  (∀ a base b, base +:+ suffix = a +:+ suffix +:+ b → b = "" ∨ occurs suffix base) →
  ¬ occurs suffix base →
  first_piece (split suffix (base +:+ suffix)) = base.
Proof.
  intros Hend Hfree. rewrite first_piece_split. apply before_app.
  intros a b H. by destruct (Hend _ _ _ H).
Qed.
End literal_suffixes.

(** * The filter compiler *)

Section filter_compiler.
Implicit Types x base suffix : string.
Implicit Types v lo hi : jsval.

Lemma not_endsWith_last_char s suffix :
  suffix ≠ "" → last_char s ≠ last_char suffix → endsWith s suffix = false.
Proof.
  intros Hne Hlast. destruct (endsWith s suffix) eqn:E; [|done].
  by apply endsWith_last_char in E.
Qed.

Lemma not_endsWith_same_length base s t :
  String.length s = String.length t → s ≠ t → endsWith (base +:+ s) t = false.
Proof.
  intros Hlen Hne. destruct (endsWith (base +:+ s) t) eqn:E; [|done].
  apply endsWith_inv in E as [p E]. by apply app_same_length_suffix in E.
Qed.

(** Which case of the [switch] a suffixed name reaches. *)
Lemma filter_entry_GT base v :
  ¬ occurs "_GT" base →
  filter_entry (base +:+ "_GT") v
  = Returned (render_constraint (Compare base GT (filter_values v))).
Proof.
  intros Hfree. unfold filter_entry.
  rewrite endsWith_app, (strip_suffix "_GT"); [done|apply GT_only_at_end|done].
Qed.

Lemma filter_entry_LT base v :
  ¬ occurs "_LT" base →
  filter_entry (base +:+ "_LT") v
  = Returned (render_constraint (Compare base LT (filter_values v))).
Proof.
  intros Hfree. unfold filter_entry.
  rewrite (not_endsWith_same_length base "_LT" "_GT") by done.
  rewrite endsWith_app, (strip_suffix "_LT"); [done|apply LT_only_at_end|done].
Qed.

Lemma filter_entry_GTE base v :
  ¬ occurs "_GTE" base →
  filter_entry (base +:+ "_GTE") v
  = Returned (render_constraint (Compare base GTE (filter_values v))).
Proof.
  intros Hfree. unfold filter_entry.
  rewrite !(not_endsWith_last_char (base +:+ "_GTE"))
    by (rewrite ?last_char_app; done).
  rewrite endsWith_app, (strip_suffix "_GTE"); [done|apply GTE_only_at_end|done].
Qed.

Lemma filter_entry_LTE base v :
  ¬ occurs "_LTE" base →
  filter_entry (base +:+ "_LTE") v
  = Returned (render_constraint (Compare base LTE (filter_values v))).
Proof.
  intros Hfree. unfold filter_entry.
  rewrite !(not_endsWith_last_char (base +:+ "_LTE") "_GT"),
    !(not_endsWith_last_char (base +:+ "_LTE") "_LT")
    by (rewrite ?last_char_app; done).
  rewrite (not_endsWith_same_length base "_LTE" "_GTE") by done.
  rewrite endsWith_app, (strip_suffix "_LTE"); [done|apply LTE_only_at_end|done].
Qed.

Lemma endsWith_IN_only base suffix :
  suffix ∈ ["_GT"; "_LT"; "_GTE"; "_LTE"] →
  endsWith (base +:+ "_IN") suffix = false.
Proof.
  intros Hin.
  repeat (apply elem_of_cons in Hin as [->|Hin]);
    [..|by apply elem_of_nil in Hin];
    apply not_endsWith_last_char; rewrite ?last_char_app; done.
Qed.

Lemma filter_entry_IN base v :
  ¬ occurs "_IN" base →
  filter_entry (base +:+ "_IN") v
  = (lo ← index (filter_values v) 0;
     hi ← index (filter_values v) 1;
     Returned (render_constraint (RANGE lo base hi))).
Proof.
  intros Hfree. unfold filter_entry.
  rewrite !endsWith_IN_only by set_solver.
  rewrite endsWith_app, (strip_suffix "_IN"); [done|apply IN_only_at_end|done].
Qed.

Lemma filter_entry_EQ x v :
  endsWith x "_GT" = false → endsWith x "_LT" = false →
  endsWith x "_GTE" = false → endsWith x "_LTE" = false →
  endsWith x "_IN" = false →
  filter_entry x v = Returned (render_constraint (Compare x EQ (filter_values v))).
Proof. intros H1 H2 H3 H4 H5. unfold filter_entry. by rewrite H1, H2, H3, H4, H5. Qed.

(** The loop pushes onto the array it is given. *)
Lemma create_filter_loop_acc (filter : Filter) (filters : list string) :
  create_filter_loop filter filters
  = (λ pushed, (filters ++ pushed)%list) <$> create_filter_loop filter [].
Proof.
  revert filters. induction filter as [|[x v] rest IH]; intros filters.
  - simpl. by rewrite app_nil_r.
  - simpl. destruct (filter_entry x v) as [t|e]; simpl; [|done].
    rewrite (IH (filters ++ [t])%list), (IH [t]).
    destruct (create_filter_loop rest []); simpl; [|done].
    by rewrite <- app_assoc.
Qed.

Lemma create_filter_loop_cons x v (rest : Filter) :
  create_filter_loop ((x, v) :: rest) []
  = (t ← filter_entry x v;
     (λ pushed, t :: pushed) <$> create_filter_loop rest []).
Proof.
  simpl. destruct (filter_entry x v) as [t|e]; simpl; [|done].
  by rewrite create_filter_loop_acc.
Qed.

(** What the loop returns holds, in order, the text of each entry. *)
Lemma create_filter_loop_Returned (filter : Filter) pushed :
  create_filter_loop filter [] = Returned pushed →
  Forall2 (λ entry t, filter_entry entry.1 entry.2 = Returned t) filter pushed.
Proof.
  revert pushed. induction filter as [|[x v] rest IH]; intros pushed.
  - intros [= <-]. constructor.
  - rewrite create_filter_loop_cons.
    destruct (filter_entry x v) as [t|e] eqn:Ht; simpl; [|done].
    destruct (create_filter_loop rest []) as [l|e]; simpl; [|done].
    intros [= <-]. constructor; auto.
Qed.

Lemma create_filter_Returned (filter : Filter) text :
  create_filter filter = Returned text →
  ∃ pushed, create_filter_loop filter [] = Returned pushed
            ∧ text = String.concat " AND " pushed.
Proof.
  unfold create_filter.
  destruct (create_filter_loop filter []) as [l|e]; simpl; [|done].
  intros [= <-]. eauto.
Qed.
End filter_compiler.

(** * The path query builder *)

(** Finds a text among the operands of nested concatenations. *)
Ltac find_occurrence :=
  solve [ apply occurs_refl
        | apply occurs_app_r; find_occurrence
        | apply occurs_app_l; find_occurrence ].

Section query_builder.
Implicit Types x t text : string.
Implicit Types v lo hi : jsval.

Lemma length_pos_nonempty t : 0 < String.length t → t ≠ "".
Proof. intros H ->. simpl in H. lia. Qed.

(** Every text the loop pushes is non-empty. *)
Lemma filter_entry_nonempty x v t : filter_entry x v = Returned t → t ≠ "".
Proof.
  unfold filter_entry. intros H. apply length_pos_nonempty.
  repeat match type of H with
         | (if ?c then _ else _) = _ => destruct c
         end;
    try (injection H as <-; rewrite ?app_cons; simpl; lia).
  destruct (index (filter_values v) 0) as [lo|]; [|done].
  destruct (index (filter_values v) 1) as [hi|]; [|done].
  simpl in H. injection H as <-.
  rewrite length_app_text, app_cons. simpl. lia.
Qed.

Lemma occurs_empty t : occurs t "" → t = "".
Proof.
  intros (a & b & H). destruct a; [|done]. rewrite app_empty_l in H.
  by destruct t.
Qed.

(** The operand of an entry sits verbatim in the text pushed for it. *)
Lemma to_String_filter_values v : occurs (to_String v) (to_String (filter_values v)).
Proof.
  destruct v; try apply occurs_refl.
  cbn [filter_values to_String String.concat]. find_occurrence.
Qed.

Lemma endsWith_IN_excludes x :
  endsWith x "_IN" = true →
  endsWith x "_GT" = false ∧ endsWith x "_LT" = false ∧
  endsWith x "_GTE" = false ∧ endsWith x "_LTE" = false.
Proof.
  intros [base ->]%endsWith_inv.
  repeat split; apply endsWith_IN_only; set_solver.
Qed.

Lemma filter_entry_operands x v t :
  filter_entry x v = Returned t →
  if endsWith x "_IN"
  then ∃ lo hi, index (filter_values v) 0 = Returned lo
                ∧ index (filter_values v) 1 = Returned hi
                ∧ occurs (to_String lo) t ∧ occurs (to_String hi) t
  else occurs (to_String v) t.
Proof.
  unfold filter_entry. intros H.
  destruct (endsWith x "_IN") eqn:HIN.
  - destruct (endsWith_IN_excludes _ HIN) as (H1 & H2 & H3 & H4).
    rewrite H1, H2, H3, H4 in H.
    destruct (index (filter_values v) 0) as [lo|]; [|done].
    destruct (index (filter_values v) 1) as [hi|]; [|done].
    simpl in H. injection H as <-. exists lo, hi.
    repeat split; find_occurrence.
  - repeat match type of H with
           | (if ?c then _ else _) = _ => destruct c
           end;
      injection H as <-;
      (eapply occurs_trans; [apply to_String_filter_values|find_occurrence]).
Qed.

(** The shape of the text [build_query] returns. *)
Lemma build_query_Returned (_args : PathArgs) query :
  build_query _args = Returned query →
  ∃ MovieFilter TvFilter PersonFilter,
    compile_category (filters _args ≫= movie_filter) = Returned MovieFilter ∧
    compile_category (filters _args ≫= tv_filter) = Returned TvFilter ∧
    compile_category (filters _args ≫= person_filter) = Returned PersonFilter ∧
    query =
      ((if bool_decide (is_Some (filters _args ≫= person_filter))
           || bool_decide (is_Some (filters _args ≫= movie_filter))
           || bool_decide (is_Some (filters _args ≫= tv_filter))
        then match_text (first_person_id _args) (second_person_id _args) +:+ " WHERE "
        else match_text (first_person_id _args) (second_person_id _args))
       +:+ String.concat " AND "
             (push_clause PersonFilter
                (Person_clause (first_person_id _args) (second_person_id _args))
                (push_clause TvFilter TvEpisode_clause
                   (push_clause MovieFilter Movie_clause []))))
      +:+ " RETURN p".
Proof.
  unfold build_query.
  destruct (compile_category (filters _args ≫= movie_filter)) as [M|]; [|done].
  destruct (compile_category (filters _args ≫= tv_filter)) as [T|]; [|done].
  destruct (compile_category (filters _args ≫= person_filter)) as [P|]; [|done].
  simpl. intros [= <-]. by exists M, T, P.
Qed.

Lemma compile_category_Some (filter : Filter) F :
  compile_category (Some filter) = Returned F →
  ∃ text, F = Some text ∧ create_filter filter = Returned text.
Proof.
  simpl. destruct (create_filter filter) as [text|]; [|done].
  intros [= <-]. eauto.
Qed.

Lemma elem_of_push_clause F clause (filters : list string) c :
  c ∈ filters → c ∈ push_clause F clause filters.
Proof.
  intros Hc. unfold push_clause. destruct F as [text|]; [|done].
  destruct (truthy (JStr text)); [|done]. apply elem_of_app. by left.
Qed.

Lemma push_clause_pushed text clause (filters : list string) :
  text ≠ "" → clause text ∈ push_clause (Some text) clause filters.
Proof.
  intros Hne. unfold push_clause. simpl.
  destruct (String.eqb_spec text ""); [done|]. simpl.
  apply elem_of_app. right. by apply list_elem_of_singleton.
Qed.

(** The text compiled for a non-empty filter is non-empty and holds the
    text of each entry. *)
Lemma create_filter_entry (filter : Filter) text x v :
  create_filter filter = Returned text → (x, v) ∈ filter →
  ∃ t, filter_entry x v = Returned t ∧ occurs t text ∧ text ≠ "".
Proof.
  intros (pushed & Hloop & ->)%create_filter_Returned Hin.
  apply create_filter_loop_Returned in Hloop.
  apply list_elem_of_lookup in Hin as [i Hi].
  destruct (Forall2_lookup_l _ _ _ _ _ Hloop Hi) as (t & Ht & Hentry).
  simpl in Hentry. exists t. split; [done|].
  assert (occurs t (String.concat " AND " pushed)) as Hocc.
  { apply occurs_concat. by eapply list_elem_of_lookup_2. }
  split; [done|]. intros Hempty. rewrite Hempty in Hocc.
  apply occurs_empty in Hocc. by apply filter_entry_nonempty in Hentry.
Qed.
End query_builder.

(** * Properties of the compiled query *)

Section compiled_query.
Implicit Types x t text base : string.
Implicit Types v lo hi : jsval.

(** A clause of the [WHERE] part sits in the query. *)
Lemma clause_in_query head (clauses : list string) c :
  c ∈ clauses →
  occurs c (head +:+ String.concat " AND " clauses +:+ " RETURN p").
Proof.
  intros Hc. apply occurs_app_l, occurs_app_r. by apply occurs_concat.
Qed.

(** The text compiled for a category that was given a non-empty filter
    sits in the query, inside the clause of that category. *)
Lemma category_in_query (_args : PathArgs) query pf (filter : Filter) x v :
  build_query _args = Returned query →
  filters _args = Some pf →
  Some filter ∈ [movie_filter pf; tv_filter pf; person_filter pf] →
  (x, v) ∈ filter →
  ∃ t, filter_entry x v = Returned t ∧ occurs t query.
Proof.
  intros (M & T & P & HM & HT & HP & ->)%build_query_Returned Hpf Hcat Hin.
  rewrite Hpf in HM, HT, HP. simpl in HM, HT, HP.
  rewrite app_assoc_text.
  repeat (apply elem_of_cons in Hcat as [Hcat|Hcat]);
    [..|by apply elem_of_nil in Hcat].
  - rewrite <- Hcat in HM. apply compile_category_Some in HM as (text & -> & Hc).
    destruct (create_filter_entry _ _ _ _ Hc Hin) as (t & Ht & Hocc & Hne).
    exists t. split; [done|]. eapply occurs_trans; [exact Hocc|].
    eapply occurs_trans; [|apply clause_in_query].
    2:{ do 2 apply elem_of_push_clause. by apply push_clause_pushed. }
    unfold Movie_clause. find_occurrence.
  - rewrite <- Hcat in HT. apply compile_category_Some in HT as (text & -> & Hc).
    destruct (create_filter_entry _ _ _ _ Hc Hin) as (t & Ht & Hocc & Hne).
    exists t. split; [done|]. eapply occurs_trans; [exact Hocc|].
    eapply occurs_trans; [|apply clause_in_query].
    2:{ apply elem_of_push_clause. by apply push_clause_pushed. }
    unfold TvEpisode_clause. find_occurrence.
  - rewrite <- Hcat in HP. apply compile_category_Some in HP as (text & -> & Hc).
    destruct (create_filter_entry _ _ _ _ Hc Hin) as (t & Ht & Hocc & Hne).
    exists t. split; [done|]. eapply occurs_trans; [exact Hocc|].
    eapply occurs_trans; [|apply clause_in_query].
    2:{ by apply push_clause_pushed. }
    unfold Person_clause. find_occurrence.
Qed.

Lemma identifiers_in_query (_args : PathArgs) query :
  build_query _args = Returned query →
  occurs (pretty (first_person_id _args)) query
  ∧ occurs (pretty (second_person_id _args)) query.
Proof.
  intros (M & T & P & _ & _ & _ & ->)%build_query_Returned.
  unfold match_text.
  split; do 2 apply occurs_app_r; case_match; find_occurrence.
Qed.
End compiled_query.

(** C1, counterexample: the query built for [injected_args] holds the
    [status] operand as it was supplied, between the comparison that
    [create_filter] emits and the parenthesis that [build_query] adds; the
    operand is part of the query text and changes what the clause tests. *)
Lemma build_query_splices_operand :
  build_query injected_args
  = Returned (match_text 1 2 +:+ " WHERE "
              +:+ "all(r IN [x in nodes(p) where x:Movie] WHERE r.status = "
              +:+ injected_operand +:+ ") RETURN p").
Proof. reflexivity. Qed.

(** C1, amended: [build_query] returns one text and nothing else; both
    person identifiers occur in it as decimal numerals, and for every entry
    of every filter it was given the text pushed by [create_filter] occurs
    in it, with the operand inside: [String(value)] for an entry that does
    not end in [_IN], [String(value[0])] and [String(value[1])] for one that
    does. *)
Theorem build_query_interpolates_operands (_args : PathArgs) query :
  build_query _args = Returned query →
  occurs (pretty (first_person_id _args)) query
  ∧ occurs (pretty (second_person_id _args)) query
  ∧ ∀ pf (filter : Filter) x v,
      filters _args = Some pf →
      Some filter ∈ [movie_filter pf; tv_filter pf; person_filter pf] →
      (x, v) ∈ filter →
      ∃ t, filter_entry x v = Returned t ∧ occurs t query ∧
           if endsWith x "_IN"
           then ∃ lo hi, index (filter_values v) 0 = Returned lo
                         ∧ index (filter_values v) 1 = Returned hi
                         ∧ occurs (to_String lo) t ∧ occurs (to_String hi) t
           else occurs (to_String v) t.
Proof.
  intros Hq. destruct (identifiers_in_query _ _ Hq) as [H1 H2].
  split; [done|]. split; [done|].
  intros pf filter x v Hpf Hcat Hin.
  destruct (category_in_query _ _ _ _ _ _ Hq Hpf Hcat Hin) as (t & Ht & Hocc).
  exists t. split; [done|]. split; [done|].
  by apply filter_entry_operands.
Qed.

Lemma build_query_interpolates_operands_witness :
  ∃ query, build_query injected_args = Returned query
           ∧ occurs "1" query ∧ occurs "2" query
           ∧ ∃ t, filter_entry "status" (JStr injected_operand) = Returned t
                  ∧ occurs t query ∧ occurs injected_operand t.
Proof.
  eexists. split; [reflexivity|].
  pose proof (build_query_interpolates_operands injected_args _ eq_refl)
    as (H1 & H2 & H3).
  split; [exact H1|]. split; [exact H2|].
  destruct (H3 _ [("status", JStr injected_operand)] "status"
              (JStr injected_operand) eq_refl) as (t & Ht & Hocc & Hop).
  - apply list_elem_of_here.
  - apply list_elem_of_here.
  - exists t. auto.
Defined.

(** * Nesting of the compiled text *)

Section nesting.
Implicit Types s t a b x : string.
Implicit Types c : Ascii.ascii.
Implicit Types v e : jsval.

Lemma scan_app a b depth quoted :
  scan (a +:+ b) depth quoted
  = match scan a depth quoted with
    | Some (depth', quoted') => scan b depth' quoted'
    | None => None
    end.
Proof.
  revert depth quoted. induction a as [|c a IH]; intros depth quoted; [done|].
  rewrite app_cons. cbn [scan].
  destruct quoted;
    repeat match goal with
           | |- context [Ascii.eqb c ?k] => destruct (Ascii.eqb c k)
           end;
    try destruct (unfollowed c); try destruct depth; try done; apply IH.
Qed.

Lemma self_contained_app a b :
  self_contained a → self_contained b → self_contained (a +:+ b).
Proof. intros Ha Hb depth. by rewrite scan_app, Ha, Hb. Qed.

Lemma all_chars_app p a b : all_chars p (a +:+ b) = all_chars p a && all_chars p b.
Proof.
  induction a as [|c a IH]; [done|]. rewrite app_cons. simpl.
  by rewrite IH, andb_assoc.
Qed.

Lemma all_chars_impl (p q : Ascii.ascii → bool) s :
  (∀ c, p c = true → q c = true) → all_chars p s = true → all_chars q s = true.
Proof.
  intros Hpq. induction s as [|c s IH]; [done|]. simpl.
  intros [? ?]%andb_true_iff. apply andb_true_iff. auto.
Qed.

Lemma plain_self_contained s : plain s = true → self_contained s.
Proof.
  unfold plain. induction s as [|c s IH]; [done|]. simpl.
  intros [Hc Hs]%andb_true_iff depth. unfold plain_char in Hc.
  apply negb_true_iff in Hc.
  repeat (apply orb_false_iff in Hc as [Hc ?]).
  cbn [scan]. repeat case_match; try done. by apply IH.
Qed.

Lemma plain_app a b : plain (a +:+ b) = plain a && plain b.
Proof. apply all_chars_app. Qed.

(** Inside a string, a text of plain characters stays inside it. *)
Lemma scan_quoted_plain s depth :
  plain s = true → scan s depth true = Some (depth, true).
Proof.
  unfold plain. induction s as [|c s IH]; [done|]. simpl.
  intros [Hc Hs]%andb_true_iff. unfold plain_char in Hc.
  apply negb_true_iff in Hc.
  repeat (apply orb_false_iff in Hc as [Hc ?]).
  repeat case_match; try done. by apply IH.
Qed.

Lemma float_char_plain c : float_char c = true → plain_char c = true.
Proof. destruct c as [[] [] [] [] [] [] [] []]; by vm_compute. Qed.

Lemma date_char_plain c : date_char c = true → plain_char c = true.
Proof. destruct c as [[] [] [] [] [] [] [] []]; by vm_compute. Qed.

Lemma pretty_N_char_plain n : plain_char (pretty_N_char n) = true.
Proof. unfold pretty_N_char. by repeat case_match. Qed.

Lemma plain_pretty_N_go n s : plain s = true → plain (pretty_N_go n s) = true.
Proof.
  revert s. induction (N.lt_wf_0 n) as [n _ IH]; intros s Hs.
  destruct (decide (n = 0)%N) as [->|].
  - by rewrite pretty_N_go_0.
  - rewrite pretty_N_go_step by lia. apply IH.
    + apply N.div_lt; lia.
    + unfold plain. simpl. by rewrite pretty_N_char_plain.
  Qed.

Lemma plain_pretty_N (n : N) : plain (pretty n) = true.
Proof.
  unfold pretty, pretty_N. case_decide; [done|]. by apply plain_pretty_N_go.
Qed.

(** The decimal numeral of an integer is plain. *)
Lemma plain_pretty_Z (n : Z) : plain (pretty n) = true.
Proof.
  unfold pretty, pretty_Z. destruct n as [|p|p]; [done|..].
  - apply (plain_pretty_N (N.pos p)).
  - rewrite plain_app. apply (plain_pretty_N (N.pos p)).
Qed.

(** The text of a value of a plain type, as [String] gives it. *)
Lemma plain_to_String ty v :
  plain_type ty = true → has_type ty v = true → plain (to_String v) = true.
Proof.
  destruct ty, v; try done; simpl; intros _ H.
  - by destruct b.
  - apply plain_pretty_Z.
  - apply plain_pretty_Z.
  - by eapply all_chars_impl; [apply float_char_plain|].
  - by eapply all_chars_impl; [apply date_char_plain|].
Qed.

(** The operand of a comparison entry: plain, or a [date("...")] literal. *)
Lemma self_contained_operand ty v :
  plain_type ty = true → has_type ty v = true →
  self_contained (to_String (filter_values v)).
Proof.
  intros Hty Hv. pose proof (plain_to_String _ _ Hty Hv) as Hplain.
  destruct v; try (by apply plain_self_contained).
  cbn [filter_values to_String String.concat] in *. intros depth.
  rewrite !scan_app. simpl.
  by rewrite app_empty_l, scan_app, (scan_quoted_plain _ _ Hplain).
Qed.

(** The bounds of a range entry are plain. *)
Lemma plain_bound ty v i e :
  plain_type ty = true → has_type (TList ty) v = true →
  index (filter_values v) i = Returned e → plain (to_String e) = true.
Proof.
  intros Hty Hv He. destruct v; try done. simpl in Hv, He.
  injection He as <-. destruct (l !! i) as [e|] eqn:Hi; [|done]. simpl.
  apply (plain_to_String ty); [done|].
  rewrite forallb_forall in Hv. apply Hv.
  apply list_elem_of_In. by eapply list_elem_of_lookup_2.
Qed.

Lemma plain_before sep x : plain x = true → plain (before sep x) = true.
Proof.
  unfold plain. induction x as [|c x IH]; [done|]. cbn [before all_chars].
  intros [? ?]%andb_true_iff. destruct (String.prefix sep (String c x)); [done|].
  simpl. apply andb_true_iff. auto.
Qed.

(** The fields [PersonFilter] declares: plain names, lists of a plain type
    under [_IN] and plain types elsewhere. *)
Lemma PersonFilter_shape x ty :
  (x, ty) ∈ PersonFilter →
  plain x = true
  ∧ if endsWith x "_IN"
    then ∃ ty', ty = TList ty' ∧ plain_type ty' = true
    else plain_type ty = true.
Proof.
  intros Hin. unfold PersonFilter in Hin.
  repeat (apply elem_of_cons in Hin as [[= -> ->]|Hin];
          [split; [by vm_compute|vm_compute; eauto]|]).
  by apply elem_of_nil in Hin.
Qed.

(** The text pushed for an entry that [PersonFilter] admits closes what it
    opens. *)
Lemma typed_entry_self_contained x ty v t :
  (x, ty) ∈ PersonFilter → has_type ty v = true →
  filter_entry x v = Returned t → self_contained t.
Proof.
  intros [Hx Hty]%PersonFilter_shape Hv. unfold filter_entry.
  assert (∀ sep, self_contained (first_piece (split sep x))) as Hfield.
  { intros sep. rewrite first_piece_split.
    by apply plain_self_contained, plain_before. }
  destruct (endsWith x "_IN") eqn:HIN.
  - destruct (endsWith_IN_excludes _ HIN) as (-> & -> & -> & ->).
    destruct Hty as (ty' & -> & Hty').
    destruct (index (filter_values v) 0) as [lo|] eqn:Hlo; [|done].
    destruct (index (filter_values v) 1) as [hi|] eqn:Hhi; [|done].
    simpl. intros [= <-].
    repeat apply self_contained_app; try done;
      apply plain_self_contained; by eauto using plain_bound.
  - pose proof (self_contained_operand _ _ Hty Hv) as Hop.
    repeat case_match; intros [= <-];
      repeat apply self_contained_app; try done;
      by apply plain_self_contained.
Qed.

Lemma self_contained_concat sep (l : list string) :
  self_contained sep → Forall self_contained l →
  self_contained (String.concat sep l).
Proof.
  intros Hsep. induction 1 as [|t l Ht Hl IH]; [done|].
  destruct l as [|u l]; [done|].
  change (String.concat sep (t :: u :: l))
    with (t +:+ sep +:+ String.concat sep (u :: l)).
  by repeat apply self_contained_app.
Qed.

(** The text compiled from a person filter that GraphQL validation lets
    through closes what it opens: what [build_query] appends to it with
    [OR] stands beside it, not inside it. *)
Lemma typed_person_filter_self_contained (filter : Filter) pushed :
  typed PersonFilter filter →
  create_filter_loop filter [] = Returned pushed →
  self_contained (String.concat " AND " pushed).
Proof.
  intros Htyped Hloop%create_filter_loop_Returned.
  apply self_contained_concat; [by apply plain_self_contained|].
  apply Forall_forall. intros t Ht.
  apply list_elem_of_lookup in Ht as [i Hi].
  destruct (Forall2_lookup_r _ _ _ _ _ Hloop Hi) as ([x v] & Hxv & Hentry).
  destruct (Htyped x v) as (ty & Hdecl & Hv); [by eapply list_elem_of_lookup_2|].
  by eapply typed_entry_self_contained.
Qed.
End nesting.

(** * The person constraint and the endpoints *)

Section person_constraint.
Implicit Types first second : Z.

Lemma render_emitted (pushed : list string) :
  map render_comparison (map Emitted pushed) = pushed.
Proof. induction pushed as [|t l IH]; [done|]. simpl. by rewrite IH. Qed.

(** The [Person] clause is the rendering of [person_constraint]. *)
Lemma Person_clause_render first second (pushed : list string) :
  Person_clause first second (String.concat " AND " pushed)
  = "all(r IN [x in nodes(p) where x:Person] WHERE "
    +:+ render_where (person_constraint pushed first second) +:+ ")".
Proof.
  unfold Person_clause, render_where, person_constraint.
  cbn [map String.concat]. rewrite render_emitted.
  cbn [render_comparison].
  change " OR r.person_id = " with (" OR " +:+ "r.person_id = ").
  by rewrite !app_assoc_text.
Qed.

Lemma tri_or_TRUE_r a : tri_or a TRUE = TRUE.
Proof. by destruct a. Qed.

(** Either endpoint meets the constraint, whatever the emitted
    comparisons evaluate to. *)
Lemma endpoints_meet_constraint emitted (pushed : list string) first second :
  eval_where emitted first (person_constraint pushed first second) = TRUE
  ∧ eval_where emitted second (person_constraint pushed first second) = TRUE.
Proof.
  unfold eval_where, person_constraint. cbn [foldr eval_comparison].
  split; repeat case_bool_decide; try done;
    match goal with
    | |- tri_or _ ?rest = TRUE =>
        let r := eval cbv in rest in change rest with r
    end;
    apply tri_or_TRUE_r.
Qed.
End person_constraint.

(** C2: when [build_query] is given a person filter with at least one
    entry, the query holds the [Person] clause whose [WHERE] text is the
    texts compiled from the filter joined by [AND], then [OR
    r.person_id = first], then [OR r.person_id = second].  For a filter
    that [PersonFilter] admits the compiled text closes what it opens, so
    the two tests stand beside it as disjuncts; and a node whose [person_id]
    is either endpoint identifier meets the clause whatever the comparisons
    compiled from the filter evaluate to. *)
Theorem endpoints_exempt_from_person_filter
    (_args : PathArgs) query pf (filter : Filter) :
  build_query _args = Returned query →
  filters _args = Some pf →
  person_filter pf = Some filter →
  filter ≠ [] →
  ∃ pushed,
    create_filter_loop filter [] = Returned pushed ∧
    let w := person_constraint pushed (first_person_id _args) (second_person_id _args) in
    occurs ("all(r IN [x in nodes(p) where x:Person] WHERE "
            +:+ render_where w +:+ ")") query
    ∧ (typed PersonFilter filter →
       self_contained (String.concat " AND " pushed))
    ∧ ∀ emitted,
        eval_where emitted (first_person_id _args) w = TRUE
        ∧ eval_where emitted (second_person_id _args) w = TRUE.
Proof.
  intros Hq Hpf Hperson Hne.
  pose proof Hq as (M & T & P & _ & _ & HP & ->)%build_query_Returned.
  rewrite Hpf in HP. simpl in HP. rewrite Hperson in HP.
  apply compile_category_Some in HP as (text & -> & Hc).
  destruct filter as [|[x v] rest]; [done|].
  destruct (create_filter_entry _ _ x v Hc) as (t & _ & _ & Htext);
    [apply list_elem_of_here|].
  apply create_filter_Returned in Hc as (pushed & Hloop & ->).
  exists pushed. split; [done|]. simpl. split; [|split].
  - rewrite <- Person_clause_render, app_assoc_text.
    apply clause_in_query. by apply push_clause_pushed.
  - intros Htyped. by eapply typed_person_filter_self_contained.
  - intros emitted. apply endpoints_meet_constraint.
Qed.

Lemma endpoints_exempt_from_person_filter_witness :
  ∃ query pushed,
    build_query filtered_args = Returned query ∧
    create_filter_loop [("gender", JNum 1); ("popularity_GT", JFloat "7.5")] []
    = Returned pushed ∧
    occurs ("all(r IN [x in nodes(p) where x:Person] WHERE "
            +:+ render_where (person_constraint pushed 4724 287) +:+ ")") query
    ∧ self_contained (String.concat " AND " pushed)
    ∧ eval_where (λ _, FALSE) 4724 (person_constraint pushed 4724 287) = TRUE
    ∧ eval_where (λ _, FALSE) 287 (person_constraint pushed 4724 287) = TRUE.
Proof.
  destruct (endpoints_exempt_from_person_filter filtered_args _ _ _
              eq_refl eq_refl eq_refl) as (pushed & Hloop & Hocc & Hnest & Heval);
    [done|].
  eexists _, pushed. split; [reflexivity|]. split; [exact Hloop|].
  split; [exact Hocc|]. split; [|apply Heval].
  apply Hnest. intros x v Hin.
  repeat (apply elem_of_cons in Hin as [[= -> ->]|Hin]).
  - exists TInt. split; [|reflexivity].
    unfold PersonFilter. do 11 apply list_elem_of_further. apply list_elem_of_here.
  - exists TFloat. split; [|reflexivity].
    unfold PersonFilter. do 13 apply list_elem_of_further. apply list_elem_of_here.
  - by apply elem_of_nil in Hin.
Defined.

(** * Range entries *)

(** An entry whose name is a base field followed by [_IN], with an array
    of at least two bounds, compiles to [lo <= r.base <= hi] on the texts
    of the first two bounds.  On integer bounds this is the closed range:
    the chained comparison holds exactly for the values from [lo] to [hi],
    both included, whether or not they are among the bounds.  The base is
    any name in which [_IN] does not occur, as in every field of the
    declared filters. *)
Lemma IN_compiles_to_closed_range base lo hi (rest : list jsval) :
  ¬ occurs "_IN" base →
  filter_entry (base +:+ "_IN") (JArr (lo :: hi :: rest))
  = Returned (to_String lo +:+ " <= r." +:+ base +:+ " <= " +:+ to_String hi)
  ∧ create_filter [(base +:+ "_IN", JArr (lo :: hi :: rest))]
    = Returned (render_constraint (RANGE lo base hi))
  ∧ ∀ a b v, lo = JNum a → hi = JNum b →
      constraint_holds (RANGE lo base hi) v = Some true ↔ (a ≤ v ≤ b)%Z.
Proof.
  intros Hfree.
  assert (filter_entry (base +:+ "_IN") (JArr (lo :: hi :: rest))
          = Returned (render_constraint (RANGE lo base hi))) as Hentry.
  { by rewrite filter_entry_IN. }
  split; [exact Hentry|]. split.
  - unfold create_filter. cbn [create_filter_loop]. by rewrite Hentry.
  - intros a b v -> ->. simpl. split.
    + intros [= [? ?]%andb_true_iff]. lia.
    + intros [? ?]. f_equal. apply andb_true_iff. lia.
Qed.

(** The [_IN] fields that the three filter inputs declare are base names
    free of [_IN], followed by [_IN]. *)
Lemma declared_IN_fields x ty :
  (x, ty) ∈ (MovieFilter ++ TvFilter ++ PersonFilter)%list →
  endsWith x "_IN" = true →
  ∃ base, x = base +:+ "_IN" ∧ ¬ occurs "_IN" base.
Proof.
  intros Hin Hends.
  exists (before "_IN" x).
  assert (x = before "_IN" x +:+ "_IN" ∧ includes (before "_IN" x) "_IN" = false)
    as [Hx Hfree].
  { unfold MovieFilter, TvFilter, PersonFilter in Hin. simpl in Hin.
    repeat (apply elem_of_cons in Hin as [[= -> ->]|Hin];
            [first [discriminate Hends | by vm_compute]|]).
    by apply elem_of_nil in Hin. }
  split; [exact Hx|]. intros H%includes_occurs. congruence.
Qed.


(** * Ranges of dates *)

(** A part of a plain text is plain. *)
Lemma plain_occurs (t s : string) : plain s = true → occurs t s → plain t = true.
Proof.
  intros Hs (a & b & ->). rewrite !plain_app in Hs.
  by apply andb_true_iff in Hs as [_ [? _]%andb_true_iff].
Qed.

(** The range fields that the filter inputs declare with [Date] bounds. *)
Lemma declared_date_ranges (x : string) :
  (x, TList TDate) ∈ (MovieFilter ++ TvFilter ++ PersonFilter)%list →
  x ∈ ["release_date_IN"; "air_date_IN"; "birthday_IN"; "deathday_IN"].
Proof.
  intros Hin. unfold MovieFilter, TvFilter, PersonFilter in Hin. simpl in Hin.
  repeat (apply elem_of_cons in Hin as [Heq|Hin];
          [simplify_eq; rewrite !elem_of_cons; auto 6|]).
  by apply elem_of_nil in Hin.
Qed.

(** C3, at the failing inputs: for every range field that the filter inputs
    declare with [Date] bounds, and every two dates the [Date] scalar
    yields, the entry compiles to [lo <= r.base <= hi] on the bare texts of
    the dates.  No parenthesis occurs in it, so it holds no call of [date]
    nor of any other function, and Cypher has no other way of writing a
    date: it reads the digits and signs as arithmetic on integers, so the
    text does not compare the field with the two dates.
    The same two dates given through the [_GTE] and [_LTE] fields of the
    same base, which are declared beside the range field, compile to the
    comparisons with the [date("...")] literals: the test that the field
    lies between them. *)
Theorem date_range_is_not_between_its_dates
    (x lo hi : string) (rest : list jsval) :
  (x, TList TDate) ∈ (MovieFilter ++ TvFilter ++ PersonFilter)%list →
  has_type TDate (JDate lo) = true →
  has_type TDate (JDate hi) = true →
  let base := before "_IN" x in
  let text := lo +:+ " <= r." +:+ base +:+ " <= " +:+ hi in
  create_filter [(x, JArr (JDate lo :: JDate hi :: rest))] = Returned text
  ∧ ¬ occurs "(" text
  ∧ (base +:+ "_GTE", TDate) ∈ (MovieFilter ++ TvFilter ++ PersonFilter)%list
  ∧ (base +:+ "_LTE", TDate) ∈ (MovieFilter ++ TvFilter ++ PersonFilter)%list
  ∧ create_filter [(base +:+ "_GTE", JDate lo); (base +:+ "_LTE", JDate hi)]
    = Returned ("r." +:+ base +:+ " >= date(" +:+ dquote +:+ lo +:+ dquote +:+ ")"
                +:+ " AND r." +:+ base +:+ " <= date("
                +:+ dquote +:+ hi +:+ dquote +:+ ")").
Proof.
  intros Hx%declared_date_ranges Hlo Hhi. simpl in Hlo, Hhi.
  assert (plain lo = true ∧ plain hi = true) as [Hplo Hphi].
  { split; by eapply all_chars_impl; [apply date_char_plain|]. }
  repeat (apply elem_of_cons in Hx as [->|Hx]);
    [..|by apply elem_of_nil in Hx].
  all: cbv zeta; split; [reflexivity|]; split.
  all: try (intros Hocc; apply (plain_occurs _ _) in Hocc;
            [discriminate Hocc|by rewrite !plain_app, Hplo, Hphi]).
  all: split; [vm_compute; repeat first [apply list_elem_of_here
                                        |apply list_elem_of_further]|].
  all: split; [vm_compute; repeat first [apply list_elem_of_here
                                        |apply list_elem_of_further]|].
  all: unfold create_filter; cbn [create_filter_loop app].
  all: rewrite filter_entry_GTE, filter_entry_LTE
         by (intros H%includes_occurs; discriminate H).
  all: cbn [mbind completion_bind render_constraint operator_symbol
            filter_values to_String String.concat].
  all: by rewrite !app_assoc_text.
Qed.

Lemma date_range_is_not_between_its_dates_witness :
  create_filter [("air_date_IN", JArr [JDate "2020-01-01"; JDate "2021-06-30"])]
  = Returned "2020-01-01 <= r.air_date <= 2021-06-30"
  ∧ ¬ occurs "(" "2020-01-01 <= r.air_date <= 2021-06-30"
  ∧ create_filter [("air_date_GTE", JDate "2020-01-01");
                   ("air_date_LTE", JDate "2021-06-30")]
    = Returned ("r.air_date >= date(" +:+ dquote +:+ "2020-01-01" +:+ dquote
                +:+ ") AND r.air_date <= date(" +:+ dquote +:+ "2021-06-30"
                +:+ dquote +:+ ")").
Proof.
  destruct (date_range_is_not_between_its_dates
              "air_date_IN" "2020-01-01" "2021-06-30" [])
    as (Hrange & Hbare & _ & _ & Hsiblings).
  - unfold MovieFilter, TvFilter, PersonFilter. simpl.
    do 32 apply list_elem_of_further. apply list_elem_of_here.
  - reflexivity.
  - reflexivity.
  - split; [exact Hrange|]. split; [exact Hbare|]. exact Hsiblings.
Defined.

(** * Date operands *)

(** C7, at the failing input: the bounds of a date range are spliced as the
    bare text of the dates, which Cypher reads as integer subtractions,
    while the comparison entries of the same field get [date("...")]
    literals. *)
Theorem date_range_bounds_are_not_date_literals :
  create_filter [("release_date_IN", JArr [JDate "2020-01-01"; JDate "2021-06-30"])]
  = Returned "2020-01-01 <= r.release_date <= 2021-06-30"
  ∧ create_filter [("release_date_GTE", JDate "2020-01-01")]
    = Returned ("r.release_date >= date(" +:+ dquote +:+ "2020-01-01" +:+ dquote +:+ ")").
Proof. split; reflexivity. Qed.

(** * Failures of the filter compiler *)

Section compiler_failures.
Implicit Types x : string.
Implicit Types v : jsval.

(** The only entry that makes the loop throw is one reaching the [_IN]
    case with [null] or [undefined] as its value. *)
Lemma filter_entry_total x v :
  (endsWith x "_IN" = true → v ≠ JNull ∧ v ≠ JUndefined) →
  ∃ t, filter_entry x v = Returned t.
Proof.
  intros Hv. unfold filter_entry.
  repeat match goal with
         | |- ∃ t, (if ?c then _ else _) = _ => destruct c eqn:?
         end; eauto.
  destruct Hv as [? ?]; [done|]. destruct v; simpl; eauto; done.
Qed.



End compiler_failures.




(** * The entity type resolver *)

(** C4, counterexample: a record with none of [movie_id], [episode_id] and
    [tv_show_id] resolves to [null], and so does a record that has an
    [episode_id] but no [tv_show_id]. *)
Lemma resolveType_defaults_to_null :
  (∅ : obj) !! "movie_id" = None
  ∧ (∅ : obj) !! "episode_id" = None
  ∧ (∅ : obj) !! "tv_show_id" = None
  ∧ MovieOrTvEpisode.__resolveType ∅ = JNull
  ∧ MovieOrTvEpisode.__resolveType {[ "episode_id" := JInteger 3659603 ]} = JNull.
Proof. repeat split; reflexivity. Qed.

(** C4, amended: the resolver returns [Movie] whenever the record's
    [movie_id] is truthy, as every [Integer] of the driver is; it returns
    [TvEpisode] whenever [movie_id] is not truthy and [tv_show_id] is; and
    it returns [null] when neither is truthy, in particular when neither is
    present.  [episode_id] is not consulted. *)
Theorem resolveType_by_truthiness (o : obj) :
  (truthy (get_prop o "movie_id") = true →
   MovieOrTvEpisode.__resolveType o = JStr "Movie")
  ∧ (∀ n, o !! "movie_id" = Some (JInteger n) →
          MovieOrTvEpisode.__resolveType o = JStr "Movie")
  ∧ (truthy (get_prop o "movie_id") = false →
     truthy (get_prop o "tv_show_id") = true →
     MovieOrTvEpisode.__resolveType o = JStr "TvEpisode")
  ∧ (truthy (get_prop o "movie_id") = false →
     truthy (get_prop o "tv_show_id") = false →
     MovieOrTvEpisode.__resolveType o = JNull)
  ∧ (o !! "movie_id" = None → o !! "tv_show_id" = None →
     MovieOrTvEpisode.__resolveType o = JNull).
Proof.
  unfold MovieOrTvEpisode.__resolveType, get_prop.
  repeat split.
  - by intros ->.
  - by intros n ->.
  - by intros -> ->.
  - by intros -> ->.
  - by intros -> ->.
Qed.

Lemma resolveType_by_truthiness_witness :
  MovieOrTvEpisode.__resolveType a_movie = JStr "Movie"
  ∧ MovieOrTvEpisode.__resolveType an_episode = JStr "TvEpisode"
  ∧ MovieOrTvEpisode.__resolveType {[ "movie_id" := JNum 0 ]} = JNull
  ∧ MovieOrTvEpisode.__resolveType {[ "title" := JStr "untitled" ]} = JNull.
Proof.
  split; [|split; [|split]].
  - destruct (resolveType_by_truthiness a_movie) as (_ & H & _).
    by apply (H 603%Z).
  - destruct (resolveType_by_truthiness an_episode) as (_ & _ & H & _).
    by apply H.
  - destruct (resolveType_by_truthiness {[ "movie_id" := JNum 0 ]})
      as (_ & _ & _ & H & _).
    by apply H.
  - destruct (resolveType_by_truthiness {[ "title" := JStr "untitled" ]})
      as (_ & _ & _ & _ & H).
    by apply H.
Defined.

(** * The path decomposer *)

Section decomposer.
Implicit Types st : State.
Implicit Types seg : PathSegment.
Implicit Types results : list PersonWithRelationships.
Implicit Types l project : loc.
Implicit Types o : obj.

Lemma parity_succ i : (S i mod 2 =? 0)%nat = negb (i mod 2 =? 0)%nat.
Proof.
  pose proof (Nat.mod_upper_bound i 2). pose proof (Nat.div_mod_eq i 2).
  pose proof (Nat.mod_upper_bound (S i) 2). pose proof (Nat.div_mod_eq (S i) 2).
  destruct (Nat.eqb_spec (S i mod 2) 0), (Nat.eqb_spec (i mod 2) 0);
    simpl; try done; exfalso; lia.
Qed.

(** One turn of the loop pushes the triple of its segment and enriches
    that triple's project. *)
Lemma loop_body_eq i seg st results :
  loop_body i seg st results
  = (attach_parent_show (project (triple_at i seg)) st,
     (results ++ [triple_at i seg])%list).
Proof. unfold loop_body, triple_at. by destruct (i mod 2 =? 0)%nat. Qed.

Lemma loop_results i (segs : list PathSegment) st results :
  (loop i segs st results).2
  = (results ++ imap (λ j, triple_at (i + j)) segs)%list.
Proof.
  revert i st results. induction segs as [|seg segs IH]; intros i st results.
  - simpl. by rewrite app_nil_r.
  - cbn [loop]. rewrite loop_body_eq, IH. cbn [imap].
    rewrite <- app_assoc. simpl. rewrite Nat.add_0_r. do 2 f_equal.
    apply imap_ext. intros j s _. simpl. f_equal. lia.
Qed.

Lemma loop_state i (segs : list PathSegment) st results :
  (loop i segs st results).1
  = foldl (λ st t, attach_parent_show (project t) st) st
      (imap (λ j, triple_at (i + j)) segs).
Proof.
  revert i st results. induction segs as [|seg segs IH]; intros i st results.
  - done.
  - cbn [loop]. rewrite loop_body_eq, IH. cbn [imap foldl].
    rewrite Nat.add_0_r. f_equal.
    apply imap_ext. intros j s _. simpl. f_equal. lia.
Qed.

(** Reading the heap after the enrichment of [project]. *)
Lemma deref_attach_parent_show project st l :
  deref (attach_parent_show project st) l
  = if decide (l = project) then enriched (deref st project) else deref st l.
Proof.
  unfold attach_parent_show, enriched.
  destruct (hasOwnProperty (deref st project) "episode_id") eqn:E.
  - unfold deref at 1. simpl. destruct (decide (l = project)) as [->|].
    + by rewrite lookup_insert_eq.
    + by rewrite lookup_insert_ne.
  - by destruct (decide (l = project)) as [->|].
Qed.

Lemma show_query_enriched o : show_query (enriched o) = show_query o.
Proof.
  unfold enriched. destruct (hasOwnProperty o "episode_id"); [|done].
  unfold show_query, get_prop. by rewrite lookup_insert_ne.
Qed.

Lemma hasOwnProperty_enriched o :
  hasOwnProperty (enriched o) "episode_id" = hasOwnProperty o "episode_id".
Proof.
  unfold enriched. destruct (hasOwnProperty o "episode_id") eqn:E; [|done].
  unfold hasOwnProperty in *. by rewrite lookup_insert_ne.
Qed.

(** Enriching twice, as happens to a project that two segments share,
    leaves what the first enrichment left. *)
Lemma enriched_idemp o : enriched (enriched o) = enriched o.
Proof.
  unfold enriched at 1. rewrite hasOwnProperty_enriched, show_query_enriched.
  unfold enriched. destruct (hasOwnProperty o "episode_id"); [|done].
  by rewrite insert_insert_eq.
Qed.

(** After the loop every properties object is as the driver returned it
    or enriched, and the project of every triple pushed is enriched. *)
Lemma enrichment_invariant (ts : list PersonWithRelationships) st :
  let st' := foldl (λ st t, attach_parent_show (project t) st) st ts in
  (∀ l, deref st' l = deref st l ∨ deref st' l = enriched (deref st l))
  ∧ (∀ t, t ∈ ts → deref st' (project t) = enriched (deref st (project t))).
Proof.
  induction ts as [|t ts IH] using rev_ind; simpl.
  { split; [by left|]. intros t []%elem_of_nil. }
  rewrite foldl_app. simpl. destruct IH as [IHall IHts].
  set (mid := foldl _ st ts) in *.
  assert (enriched (deref mid (project t)) = enriched (deref st (project t)))
    as Hproject.
  { destruct (IHall (project t)) as [->| ->]; [done|apply enriched_idemp]. }
  split.
  - intros l. rewrite deref_attach_parent_show.
    destruct (decide (l = project t)) as [->|]; [|apply IHall].
    right. exact Hproject.
  - intros t' [Hin|Heq%list_elem_of_singleton]%elem_of_app;
      rewrite deref_attach_parent_show.
    + destruct (decide (project t' = project t)) as [Hsame|]; [|by apply IHts].
      rewrite <- Hsame, (IHts t' Hin). apply enriched_idemp.
    + subst t'. by rewrite decide_True.
Qed.

(** What the callback returns for a result with a record. *)
Lemma find_path_then_record path (rest : list Path) st :
  find_path_then {| records := path :: rest |} st
  = Returned (foldl (λ st t, attach_parent_show (project t) st) st
                (imap triple_at (segments path)),
              imap triple_at (segments path)).
Proof.
  unfold find_path_then. simpl. f_equal.
  rewrite (surjective_pairing (loop _ _ _ _)), loop_results, loop_state.
  done.
Qed.

(** On a chained path that starts at a person and whose segments each
    join a person and a project, persons are the even nodes. *)
Lemma alternation (segs : list PathSegment) :
  chained segs →
  (∀ s, segs !! 0 = Some s → kind (seg_start s) = KPerson) →
  (∀ s, s ∈ segs → joins_person_and_project s) →
  ∀ i seg, segs !! i = Some seg →
    if (i mod 2 =? 0)%nat
    then kind (seg_start seg) = KPerson ∧ kind (seg_end seg) = KProject
    else kind (seg_start seg) = KProject ∧ kind (seg_end seg) = KPerson.
Proof.
  intros Hchain Hfirst Hjoins i. induction i as [|i IH]; intros seg Hseg.
  - simpl. pose proof (Hfirst _ Hseg) as Hs.
    destruct (Hjoins seg) as [[? ?]|[Hp _]]; [by eapply list_elem_of_lookup_2|done|].
    congruence.
  - destruct (lookup_lt_is_Some_2 segs i) as [prev Hprev].
    { apply lookup_lt_Some in Hseg. lia. }
    specialize (IH _ Hprev). pose proof (Hchain _ _ _ Hprev Hseg) as Hlink.
    rewrite parity_succ. rewrite <- Hlink.
    destruct (Hjoins seg) as [[Hs He]|[Hs He]];
      [by eapply list_elem_of_lookup_2|..];
      rewrite <- Hlink in Hs;
      destruct (i mod 2 =? 0)%nat; simpl; destruct IH as [? ?]; split; congruence.
Qed.
End decomposer.

(** * Properties of the decomposition *)

(** C5: for a returned path whose segments are chained, start at a person
    and each join one person and one project, the callback returns one
    triple per segment, in the order of the segments; the triple of a
    segment holds the properties of the segment's person as [person], those
    of its project as [project] and those of its edge as [relationship],
    whichever way the stored edge points; the first triple's person is the
    node the path starts at. *)
Theorem triples_follow_the_path path (rest : list Path) (st : State) :
  chained (segments path) →
  (∀ s, segments path !! 0 = Some s → kind (seg_start s) = KPerson) →
  (∀ s, s ∈ segments path → joins_person_and_project s) →
  ∃ st' results,
    find_path_then {| records := path :: rest |} st = Returned (st', results)
    ∧ length results = length (segments path)
    ∧ ∀ i seg, segments path !! i = Some seg →
        ∃ t pn pj,
          results !! i = Some t
          ∧ kind pn = KPerson ∧ kind pj = KProject
          ∧ ((pn = seg_start seg ∧ pj = seg_end seg)
             ∨ (pn = seg_end seg ∧ pj = seg_start seg))
          ∧ (i = 0 → pn = seg_start seg)
          ∧ person t = node_properties pn
          ∧ project t = node_properties pj
          ∧ relationship t = rel_properties (seg_relationship seg).
Proof.
  intros Hchain Hfirst Hjoins. eexists _, _.
  split; [apply find_path_then_record|]. split; [apply length_imap|].
  intros i seg Hseg. exists (triple_at i seg).
  pose proof (alternation _ Hchain Hfirst Hjoins i seg Hseg) as Halt.
  assert (imap triple_at (segments path) !! i = Some (triple_at i seg)) as Ht.
  { by rewrite list_lookup_imap, Hseg. }
  unfold triple_at in *. destruct (i mod 2 =? 0)%nat eqn:Hpar.
  - exists (seg_start seg), (seg_end seg). destruct Halt. naive_solver.
  - exists (seg_end seg), (seg_start seg). destruct Halt.
    repeat split; auto. intros ->. done.
Qed.

Lemma triples_follow_the_path_witness :
  ∃ st' results,
    find_path_then {| records := [episode_path] |} episode_state
    = Returned (st', results)
    ∧ length results = 2
    ∧ ∃ t, results !! 1 = Some t
           ∧ person t = node_properties carrie
           ∧ project t = node_properties pilot
           ∧ relationship t = rel_properties crew_edge.
Proof.
  destruct (triples_follow_the_path episode_path [] episode_state)
    as (st' & results & Hret & Hlen & Htriples).
  - intros [|[|i]] s t Hs Ht; simpl in *; by simplify_eq.
  - intros s Hs. simpl in Hs. by simplify_eq.
  - intros s Hs. simpl in Hs.
    repeat (apply elem_of_cons in Hs as [->|Hs]); [by left|by right|].
    by apply elem_of_nil in Hs.
  - exists st', results. split; [exact Hret|]. split; [exact Hlen|].
    destruct (Htriples 1 _ eq_refl)
      as (t & pn & pj & Ht & Hpn & Hpj & Hside & _ & Hperson & Hproject & Hrel).
    exists t. split; [exact Ht|].
    destruct Hside as [[-> ->]|[-> ->]]; [discriminate Hpn|].
    auto.
Defined.

(** C9, counterexample: a segment that joins two people violates the
    invariant, and the callback returns a triple for it all the same, with
    the second person in the place of the project. *)
Lemma malformed_segment_is_decomposed :
  ¬ joins_person_and_project person_to_person
  ∧ find_path_then {| records := [ {| segments := [person_to_person] |} ] |}
      episode_state
    = Returned (episode_state,
                [ {| person := 0; relationship := ∅; project := 2 |} ]).
Proof.
  split.
  - intros [[_ H]|[H _]]; discriminate H.
  - reflexivity.
Qed.

(** C9, amended: the callback checks no segment.  For every path of a
    result that has a record, whatever its segments join, it returns one
    triple per segment, taking the person from the start of the segments at
    even positions and from the end of those at odd positions, and the
    project from the other side. *)
Theorem every_segment_is_decomposed path (rest : list Path) (st : State) :
  ∃ st',
    find_path_then {| records := path :: rest |} st
    = Returned (st', imap triple_at (segments path)).
Proof. eexists. apply find_path_then_record. Qed.

(** C10, at the failing input: on a result without records, which is what
    the driver gives when no path qualifies, the callback throws a
    [TypeError] at [res.records[0].get(0)], so the promise [find_path]
    returned is rejected. *)
Theorem no_path_throws :
  (∀ st : State, find_path_then {| records := [] |} st = Thrown TypeError)
  ∧ (find_path no_path {| first_person_id := 1; second_person_id := 2;
                          filters := None |}).2 = Thrown TypeError.
Proof. split; reflexivity. Qed.

(** * The enrichment *)

(** C6, counterexample: when the callback has returned, the [parent_show]
    of the episode on [episode_path] is the promise of the show lookup,
    neither the show's record nor [null]; and when the lookup finds no show
    that promise is rejected, it does not become [null]. *)
Lemma parent_show_is_a_pending_promise :
  ∃ st' results,
    find_path_then {| records := [episode_path] |} episode_state
    = Returned (st', results)
    ∧ project <$> results = [1; 1]
    ∧ ∃ p, get_prop (deref st' 1) "parent_show" = p
           ∧ p = JPromise "MATCH (tvShow:TvShow{tv_id:155513}) RETURN tvShow"
           ∧ ¬ show_record_or_null p
           ∧ settle (λ _, Returned []) p = Some (Thrown TypeError).
Proof.
  eexists _, _. split; [apply find_path_then_record|].
  split; [reflexivity|]. eexists. split; [reflexivity|].
  split; [by vm_compute|]. split; [|reflexivity].
  intros [H|[tvShow H]]; vm_compute in H; discriminate H.
Qed.

(** C6, amended: for every result with a record the callback returns, and
    when it has returned the properties of the project of every triple are
    those the driver gave with, if they have an own [episode_id], the
    promise of the show lookup for their [tv_show_id] stored as
    [parent_show]; the promise is stored as it is, not yet settled. *)
Theorem parent_show_holds_the_lookup_promise path (rest : list Path) (st : State) :
  ∃ st' results,
    find_path_then {| records := path :: rest |} st = Returned (st', results)
    ∧ ∀ t, t ∈ results →
        let o := deref st (project t) in
        (hasOwnProperty o "episode_id" = true →
         deref st' (project t) = <["parent_show" := JPromise (show_query o)]> o)
        ∧ (hasOwnProperty o "episode_id" = false → deref st' (project t) = o).
Proof.
  eexists _, _. split; [apply find_path_then_record|].
  intros t Ht. simpl.
  destruct (enrichment_invariant (imap triple_at (segments path)) st) as [_ H].
  rewrite (H t Ht). unfold enriched. split; by intros ->.
Qed.

Lemma parent_show_holds_the_lookup_promise_witness :
  ∃ st' results,
    find_path_then {| records := [episode_path] |} episode_state
    = Returned (st', results)
    ∧ ∃ t, results !! 0 = Some t
           ∧ deref st' (project t)
             = <["parent_show" := JPromise (show_query pilot_properties)]>
                 pilot_properties.
Proof.
  destruct (parent_show_holds_the_lookup_promise episode_path [] episode_state)
    as (st' & results & Hret & Hall).
  exists st', results. split; [exact Hret|].
  rewrite find_path_then_record in Hret. injection Hret as _ <-.
  eexists. split; [reflexivity|].
  apply Hall; [apply list_elem_of_here|reflexivity].
Defined.

(** * More on the filter compiler *)

Section compiler_extras.
Implicit Types x t text : string.
Implicit Types v : jsval.
Implicit Types filter : Filter.

Lemma filter_entry_Thrown x v e :
  filter_entry x v = Thrown e ↔ unindexable (x, v) = true.
Proof.
  unfold unindexable. simpl. split.
  - intros Hthrown. destruct (endsWith x "_IN") eqn:HIN.
    + destruct v; try done;
        match goal with
        | H : filter_entry x ?V = Thrown _ |- _ =>
            destruct (filter_entry_total x V) as [t Ht];
            [intros _; split; discriminate|congruence]
        end.
    + destruct (filter_entry_total x v) as [t Ht]; [intros; congruence|congruence].
  - intros [HIN Hv]%andb_true_iff. unfold filter_entry.
    destruct (endsWith_IN_excludes _ HIN) as (-> & -> & -> & ->).
    rewrite HIN. destruct e. by destruct v.
Qed.

Lemma create_filter_loop_Thrown filter e :
  create_filter_loop filter [] = Thrown e
  ↔ ∃ entry, entry ∈ filter ∧ unindexable entry = true.
Proof.
  induction filter as [|[x v] rest IH].
  - split; [done|]. by intros (? & []%elem_of_nil & _).
  - rewrite create_filter_loop_cons.
    destruct (filter_entry x v) as [t|e'] eqn:Hentry; simpl.
    + destruct (create_filter_loop rest []) as [l|e'] eqn:Hrest; simpl.
      * split; [done|]. intros (entry & [->|Hin]%elem_of_cons & Hun).
        -- apply (filter_entry_Thrown x v e) in Hun. congruence.
        -- destruct IH as [_ IH]. by discriminate IH; eauto.
      * destruct e, e'. split; [|done]. intros _.
        destruct IH as [IH _]. destruct (IH eq_refl) as (entry & Hin & Hun).
        exists entry. split; [by apply list_elem_of_further|done].
    + destruct e, e'. split; [|done]. intros _. exists (x, v).
      split; [apply list_elem_of_here|]. by eapply filter_entry_Thrown.
Qed.

Lemma create_filter_loop_app (f1 f2 : Filter) l1 l2 :
  create_filter_loop f1 [] = Returned l1 →
  create_filter_loop f2 [] = Returned l2 →
  create_filter_loop (f1 ++ f2)%list [] = Returned (l1 ++ l2)%list.
Proof.
  revert l1. induction f1 as [|[x v] rest IH]; intros l1 H1 H2.
  - by injection H1 as <-.
  - simpl app. rewrite create_filter_loop_cons in H1 |- *.
    destruct (filter_entry x v) as [t|]; [|done]. simpl in *.
    destruct (create_filter_loop rest []) as [l|] eqn:Hrest; [|done].
    simpl in H1. injection H1 as <-. by rewrite (IH l eq_refl H2).
Qed.

Lemma concat_app sep (l1 l2 : list string) :
  l1 ≠ [] → l2 ≠ [] →
  String.concat sep (l1 ++ l2)%list = String.concat sep l1 +:+ sep +:+ String.concat sep l2.
Proof.
  intros H1 H2. induction l1 as [|t l1 IH]; [done|].
  destruct l1 as [|u l1].
  - destruct l2; [done|]. reflexivity.
  - change (String.concat sep ((t :: u :: l1) ++ l2)%list)
      with (t +:+ sep +:+ String.concat sep ((u :: l1) ++ l2)%list).
    rewrite IH by done.
    change (String.concat sep (t :: u :: l1))
      with (t +:+ sep +:+ String.concat sep (u :: l1)).
    by rewrite !app_assoc_text.
Qed.

Lemma create_filter_loop_length filter pushed :
  create_filter_loop filter [] = Returned pushed → length pushed = length filter.
Proof.
  intros H%create_filter_loop_Returned. symmetry. by eapply Forall2_length.
Qed.
End compiler_extras.

(** X1: [create_filter] throws exactly on the filters that hold an entry
    whose name ends in [_IN] and whose value is [null] or [undefined]; on
    every other filter it returns a text. *)
Theorem create_filter_throws_iff (filter : Filter) :
  create_filter filter = Thrown TypeError
  ↔ ∃ entry, entry ∈ filter ∧ unindexable entry = true.
Proof.
  unfold create_filter. split.
  - intros H. apply (create_filter_loop_Thrown filter TypeError).
    by destruct (create_filter_loop filter []) as [l|[]].
  - intros H%(create_filter_loop_Thrown filter TypeError). by rewrite H.
Qed.

Lemma create_filter_throws_iff_witness :
  create_filter [("budget_GT", JNum 5); ("budget_IN", JNull)] = Thrown TypeError.
Proof.
  apply create_filter_throws_iff. exists ("budget_IN", JNull).
  split; [|reflexivity]. apply list_elem_of_further, list_elem_of_here.
Defined.

(** X2: compiling two filters one after the other is compiling them apart
    and joining the two texts with [AND], when neither is empty. *)
Theorem create_filter_app (f1 f2 : Filter) t1 t2 :
  create_filter f1 = Returned t1 →
  create_filter f2 = Returned t2 →
  f1 ≠ [] → f2 ≠ [] →
  create_filter (f1 ++ f2)%list = Returned (t1 +:+ " AND " +:+ t2).
Proof.
  intros (l1 & H1 & ->)%create_filter_Returned
         (l2 & H2 & ->)%create_filter_Returned Hne1 Hne2.
  unfold create_filter. rewrite (create_filter_loop_app _ _ _ _ H1 H2). simpl.
  rewrite concat_app; [done|..].
  - intros ->. apply create_filter_loop_length in H1. by destruct f1.
  - intros ->. apply create_filter_loop_length in H2. by destruct f2.
Qed.

Lemma create_filter_app_witness :
  create_filter ([("budget_GT", JNum 5)] ++ [("adult", JBool false); ("runtime", JNum 90)])%list
  = Returned ("r.budget > 5" +:+ " AND " +:+ "r.adult = false AND r.runtime = 90").
Proof. by apply create_filter_app. Defined.

(** X3: the text [create_filter] returns is made of one piece per entry,
    in the order of the entries and joined by [AND]; each piece is the
    non-empty text of its entry, so the text is empty only for the empty
    filter. *)
Theorem create_filter_one_piece_per_entry (filter : Filter) text :
  create_filter filter = Returned text →
  ∃ pushed,
    text = String.concat " AND " pushed
    ∧ length pushed = length filter
    ∧ (∀ i x v, filter !! i = Some (x, v) →
         ∃ t, pushed !! i = Some t ∧ filter_entry x v = Returned t ∧ t ≠ "")
    ∧ (text = "" ↔ filter = []).
Proof.
  intros Hc. pose proof Hc as (pushed & Hloop & ->)%create_filter_Returned.
  exists pushed. split; [done|].
  pose proof (create_filter_loop_length _ _ Hloop) as Hlen. split; [done|].
  split.
  - intros i x v Hi. apply create_filter_loop_Returned in Hloop.
    destruct (Forall2_lookup_l _ _ _ _ _ Hloop Hi) as (t & Ht & Hentry).
    exists t. repeat split; [done..|]. by eapply filter_entry_nonempty.
  - split.
    + intros Hempty. destruct filter as [|[x v] rest]; [done|].
      destruct (create_filter_entry _ _ x v Hc) as (_ & _ & _ & Hne);
        [apply list_elem_of_here|done].
    + intros ->. by destruct pushed.
Qed.

Lemma create_filter_one_piece_per_entry_witness :
  ∃ pushed,
    "r.adult = false AND r.runtime = 90" = String.concat " AND " pushed
    ∧ length pushed = 2.
Proof.
  destruct (create_filter_one_piece_per_entry
              [("adult", JBool false); ("runtime", JNum 90)] _ eq_refl)
    as (pushed & Htext & Hlen & _).
  by exists pushed.
Defined.

(** * More on the path query builder *)

Section builder_extras.
Implicit Types text : string.

Lemma create_filter_nil : create_filter [] = Returned "".
Proof. reflexivity. Qed.

(** What a supplied category compiles to, when it compiles. *)
Lemma compile_category_nonempty (f : option Filter) F :
  compile_category f = Returned F →
  (∀ filter, f = Some filter → filter ≠ []) →
  Earlier.given F = bool_decide (is_Some f)
  ∧ (F = None ↔ f = None).
Proof.
  destruct f as [filter|]; simpl.
  - destruct (create_filter filter) as [text|] eqn:Hc; [|done].
    intros [= <-] Hne. split; [|done]. simpl.
    destruct filter as [|[x v] rest]; [by destruct (Hne [])|].
    destruct (create_filter_entry _ _ x v Hc) as (_ & _ & _ & Htext);
      [apply list_elem_of_here|].
    by destruct (String.eqb_spec text "").
  - by intros [= <-] _.
Qed.

Lemma compile_category_Thrown (f : option Filter) e :
  compile_category f = Thrown e
  ↔ ∃ filter entry, f = Some filter ∧ entry ∈ filter ∧ unindexable entry = true.
Proof.
  destruct f as [filter|]; simpl.
  - unfold create_filter.
    destruct (create_filter_loop filter []) as [l|e'] eqn:Hloop; simpl.
    + split; [done|]. intros (? & entry & [= <-] & Hin & Hun).
      assert (create_filter_loop filter [] = Thrown e) as H.
      { apply create_filter_loop_Thrown. eauto. }
      congruence.
    + destruct e, e'. split; [|done]. intros _.
      apply create_filter_loop_Thrown in Hloop as (entry & ? & ?).
      by exists filter, entry.
  - split; [done|]. by intros (? & ? & ? & _).
Qed.

Lemma supplied_elem_of (_args : PathArgs) (filter : Filter) :
  filter ∈ supplied _args
  ↔ filters _args ≫= movie_filter = Some filter
    ∨ filters _args ≫= tv_filter = Some filter
    ∨ filters _args ≫= person_filter = Some filter.
Proof.
  unfold supplied.
  destruct (filters _args ≫= movie_filter) as [m|],
           (filters _args ≫= tv_filter) as [t|],
           (filters _args ≫= person_filter) as [p|]; simpl;
    rewrite ?elem_of_cons, elem_of_nil; intuition congruence.
Qed.
End builder_extras.

(** X4: without any category filter, whether [filters] is missing or holds
    no member, the query is the unconstrained shortest path: the [MATCH]
    text followed by [RETURN p], with no [WHERE]. *)
Theorem build_query_without_filters (_args : PathArgs) :
  supplied _args = [] →
  build_query _args
  = Returned (match_text (first_person_id _args) (second_person_id _args)
              +:+ " RETURN p").
Proof.
  unfold supplied, build_query.
  destruct (filters _args ≫= movie_filter) as [m|]; [done|].
  destruct (filters _args ≫= tv_filter) as [t|]; [done|].
  destruct (filters _args ≫= person_filter) as [p|]; [done|].
  intros _. simpl. by rewrite app_empty_r.
Qed.

Lemma build_query_without_filters_witness :
  build_query {| first_person_id := 4724; second_person_id := 287;
                 filters := Some {| movie_filter := None; tv_filter := None;
                                    person_filter := None |} |}
  = Returned (match_text 4724 287 +:+ " RETURN p").
Proof. by apply build_query_without_filters. Defined.

(** X5: when category filters are supplied and every one of them is an
    empty object, no clause is pushed but [WHERE] is still appended: the
    query is the [MATCH] text, [ WHERE ], and [ RETURN p] right after it. *)
Theorem build_query_with_empty_filters (_args : PathArgs) :
  supplied _args ≠ [] →
  (∀ filter, filter ∈ supplied _args → filter = []) →
  build_query _args
  = Returned (match_text (first_person_id _args) (second_person_id _args)
              +:+ " WHERE " +:+ " RETURN p").
Proof.
  intros Hsome Hempty.
  assert (∀ f, f ∈ [filters _args ≫= movie_filter; filters _args ≫= tv_filter;
                    filters _args ≫= person_filter] → f = None ∨ f = Some [])
    as Hcases.
  { intros [filter|] Hf; [right|by left]. f_equal. apply Hempty.
    apply supplied_elem_of.
    repeat (apply elem_of_cons in Hf as [Hf|Hf]);
      [..|by apply elem_of_nil in Hf]; symmetry in Hf; auto. }
  unfold supplied in Hsome. unfold build_query.
  destruct (Hcases (filters _args ≫= movie_filter)) as [Hm|Hm];
    [set_solver| |];
    (destruct (Hcases (filters _args ≫= tv_filter)) as [Ht|Ht];
       [set_solver| |]);
    (destruct (Hcases (filters _args ≫= person_filter)) as [Hp|Hp];
       [set_solver| |]);
    rewrite Hm, Ht, Hp in *; try done; simpl;
    by rewrite app_empty_r, app_assoc_text.
Qed.

Lemma build_query_with_empty_filters_witness :
  build_query {| first_person_id := 4724; second_person_id := 287;
                 filters := Some {| movie_filter := None; tv_filter := None;
                                    person_filter := Some [] |} |}
  = Returned (match_text 4724 287 +:+ " WHERE " +:+ " RETURN p").
Proof.
  apply build_query_with_empty_filters; [done|].
  intros filter Hin. simpl in Hin. by apply list_elem_of_singleton in Hin.
Defined.

(** X6: when no supplied category filter is empty, the query [build_query]
    returns is the query the earlier [find_path] builds from the texts that
    [create_filter] compiles: compiling the filters and then composing the
    clauses as before. *)
Theorem build_query_agrees_with_earlier (_args : PathArgs) query :
  build_query _args = Returned query →
  (∀ filter, filter ∈ supplied _args → filter ≠ []) →
  ∃ MovieFilter TvFilter PersonFilter,
    compile_category (filters _args ≫= movie_filter) = Returned MovieFilter
    ∧ compile_category (filters _args ≫= tv_filter) = Returned TvFilter
    ∧ compile_category (filters _args ≫= person_filter) = Returned PersonFilter
    ∧ query = Earlier.find_path_query
                (earlier_args _args MovieFilter TvFilter PersonFilter).
Proof.
  intros (M & T & P & HM & HT & HP & ->)%build_query_Returned Hne.
  exists M, T, P. repeat split; try done.
  unfold Earlier.find_path_query, earlier_args. simpl.
  destruct (compile_category_nonempty _ _ HM) as [-> _].
  { intros f Hf. apply Hne, supplied_elem_of. auto. }
  destruct (compile_category_nonempty _ _ HT) as [-> _].
  { intros f Hf. apply Hne, supplied_elem_of. auto. }
  destruct (compile_category_nonempty _ _ HP) as [-> _].
  { intros f Hf. apply Hne, supplied_elem_of. auto. }
  done.
Qed.

Lemma build_query_agrees_with_earlier_witness :
  ∃ query,
    build_query filtered_args = Returned query
    ∧ query = Earlier.find_path_query
                (earlier_args filtered_args None None
                   (Some "r.gender = 1 AND r.popularity > 7.5")).
Proof.
  eexists. split; [reflexivity|].
  destruct (build_query_agrees_with_earlier filtered_args _ eq_refl)
    as (M & T & P & HM & HT & HP & ->).
  - intros filter Hin. simpl in Hin.
    apply list_elem_of_singleton in Hin. by subst.
  - simpl in HM, HT, HP. by injection HM as <-; injection HT as <-; injection HP as <-.
Defined.

(** X7: [build_query] throws exactly when one of the supplied category
    filters holds an entry whose name ends in [_IN] and whose value is
    [null] or [undefined]; otherwise it returns a query. *)
Theorem build_query_throws_iff (_args : PathArgs) :
  build_query _args = Thrown TypeError
  ↔ ∃ filter entry,
      filter ∈ supplied _args ∧ entry ∈ filter ∧ unindexable entry = true.
Proof.
  unfold build_query. split.
  - intros H.
    destruct (compile_category (filters _args ≫= movie_filter)) as [M|e] eqn:HM.
    2:{ apply compile_category_Thrown in HM as (f & entry & ? & ? & ?).
        exists f, entry. rewrite supplied_elem_of. auto. }
    destruct (compile_category (filters _args ≫= tv_filter)) as [T|e] eqn:HT.
    2:{ apply compile_category_Thrown in HT as (f & entry & ? & ? & ?).
        exists f, entry. rewrite supplied_elem_of. auto. }
    destruct (compile_category (filters _args ≫= person_filter)) as [P|e] eqn:HP.
    2:{ apply compile_category_Thrown in HP as (f & entry & ? & ? & ?).
        exists f, entry. rewrite supplied_elem_of. auto. }
    done.
  - intros (f & entry & [Hf|[Hf|Hf]]%supplied_elem_of & Hin & Hun);
      assert (compile_category (Some f) = Thrown TypeError) as Hthrown
        by (apply compile_category_Thrown; eauto);
      rewrite <- Hf in Hthrown.
    + by rewrite Hthrown.
    + destruct (compile_category (filters _args ≫= movie_filter)) as [M|[]];
        [|done]. by rewrite Hthrown.
    + destruct (compile_category (filters _args ≫= movie_filter)) as [M|[]];
        [|done].
      destruct (compile_category (filters _args ≫= tv_filter)) as [T|[]];
        [|done]. by rewrite Hthrown.
Qed.

Lemma build_query_throws_iff_witness :
  build_query null_range_args = Thrown TypeError.
Proof.
  apply build_query_throws_iff. exists [("budget_IN", JNull)], ("budget_IN", JNull).
  repeat split; apply list_elem_of_here.
Defined.

(** X8: with three non-empty category filters the clauses come in the
    fixed order movie, episode, person, joined by [AND], whatever the order
    of the members of [filters]. *)
Theorem build_query_clause_order (_args : PathArgs) (m t p : Filter) M T P :
  filters _args = Some {| movie_filter := Some m; tv_filter := Some t;
                          person_filter := Some p |} →
  m ≠ [] → t ≠ [] → p ≠ [] →
  create_filter m = Returned M →
  create_filter t = Returned T →
  create_filter p = Returned P →
  build_query _args
  = Returned (match_text (first_person_id _args) (second_person_id _args)
              +:+ " WHERE "
              +:+ Movie_clause M +:+ " AND "
              +:+ TvEpisode_clause T +:+ " AND "
              +:+ Person_clause (first_person_id _args) (second_person_id _args) P
              +:+ " RETURN p").
Proof.
  intros Hf Hm Ht Hp HM HT HP.
  assert (∀ (f : Filter) text, f ≠ [] → create_filter f = Returned text →
            text ≠ "") as Htext.
  { intros [|[x v] rest] text Hne Hc; [done|].
    by destruct (create_filter_entry _ _ x v Hc) as (_ & _ & _ & ?);
      [apply list_elem_of_here|]. }
  pose proof (Htext m M Hm HM). pose proof (Htext t T Ht HT).
  pose proof (Htext p P Hp HP).
  unfold build_query. rewrite Hf. simpl. rewrite HM, HT, HP. simpl.
  destruct (String.eqb_spec M ""); [done|].
  destruct (String.eqb_spec T ""); [done|].
  destruct (String.eqb_spec P ""); [done|].
  simpl. by rewrite !app_assoc_text.
Qed.

Lemma build_query_clause_order_witness :
  build_query
    {| first_person_id := 1; second_person_id := 2;
       filters := Some {| movie_filter := Some [("runtime", JNum 90)];
                          tv_filter := Some [("episode_id", JNum 7)];
                          person_filter := Some [("gender", JNum 1)] |} |}
  = Returned (match_text 1 2 +:+ " WHERE "
              +:+ Movie_clause "r.runtime = 90" +:+ " AND "
              +:+ TvEpisode_clause "r.episode_id = 7" +:+ " AND "
              +:+ Person_clause 1 2 "r.gender = 1" +:+ " RETURN p").
Proof.
  refine (build_query_clause_order
            {| first_person_id := 1; second_person_id := 2;
               filters := Some {| movie_filter := Some [("runtime", JNum 90)];
                                  tv_filter := Some [("episode_id", JNum 7)];
                                  person_filter := Some [("gender", JNum 1)] |} |}
            [("runtime", JNum 90)] [("episode_id", JNum 7)] [("gender", JNum 1)]
            "r.runtime = 90" "r.episode_id = 7" "r.gender = 1"
            eq_refl _ _ _ eq_refl eq_refl eq_refl); done.
Defined.

(** * The filters and the schema *)

Section schema_extras.
Implicit Types x t : string.
Implicit Types v e : jsval.


Lemma to_String_JArr (l : list jsval) :
  to_String (JArr l) = String.concat "," (map element_text l).
Proof.
  reflexivity.
Qed.

Lemma plain_concat sep (l : list string) :
  plain sep = true → Forall (λ t, plain t = true) l →
  plain (String.concat sep l) = true.
Proof.
  intros Hsep. induction 1 as [|t l Ht Hl IH]; [done|].
  destruct l as [|u l]; [done|].
  change (String.concat sep (t :: u :: l))
    with (t +:+ sep +:+ String.concat sep (u :: l)).
  by rewrite !plain_app, Ht, Hsep, IH.
Qed.

(** The text of a list of values of a plain type is plain. *)
Lemma plain_to_String_list ty (l : list jsval) :
  plain_type ty = true → forallb (has_type ty) l = true →
  plain (to_String (JArr l)) = true.
Proof.
  intros Hty Hl. rewrite to_String_JArr. apply plain_concat; [done|].
  apply Forall_forall. intros t (e & -> & He)%list_elem_of_fmap.
  rewrite forallb_forall in Hl. apply list_elem_of_In, Hl in He.
  pose proof (plain_to_String _ _ Hty He). by destruct e.
Qed.

(** The text pushed for an entry of a closed field closes what it opens. *)
Lemma closed_entry_self_contained x ty v t :
  closed_field (x, ty) = true → has_type ty v = true →
  filter_entry x v = Returned t → self_contained t.
Proof.
  unfold closed_field. simpl. intros [Hx Hty]%andb_true_iff Hv.
  unfold filter_entry.
  assert (∀ sep, self_contained (first_piece (split sep x))) as Hfield.
  { intros sep. rewrite first_piece_split.
    by apply plain_self_contained, plain_before. }
  assert (endsWith x "_IN" = false →
          self_contained (to_String (filter_values v))) as Hoperand.
  { intros HIN. destruct ty; rewrite ?HIN in Hty; simpl in Hty; try done;
      try (match type of Hv with
           | has_type ?T _ = true => by apply (self_contained_operand T)
           end).
    destruct v; try done; apply plain_self_contained;
      first [done|by eapply plain_to_String_list]. }
  destruct (endsWith x "_IN") eqn:HIN.
  - destruct (endsWith_IN_excludes _ HIN) as (-> & -> & -> & ->).
    destruct ty as [| | | | |ty']; try done.
    destruct (index (filter_values v) 0) as [lo|] eqn:Hlo; [|done].
    destruct (index (filter_values v) 1) as [hi|] eqn:Hhi; [|done].
    simpl. intros [= <-].
    repeat apply self_contained_app; try done;
      apply plain_self_contained; by eauto using plain_bound.
  - specialize (Hoperand eq_refl).
    repeat case_match; intros [= <-];
      repeat apply self_contained_app; try done;
      by apply plain_self_contained.
Qed.

(** Which declared fields are closed. *)
Lemma declared_fields_closed declared entity x ty :
  (declared, entity) ∈ filter_inputs → (x, ty) ∈ declared →
  x ∉ text_fields → closed_field (x, ty) = true.
Proof.
  intros Hinput Hin Hx. unfold filter_inputs in Hinput.
  repeat (apply elem_of_cons in Hinput as [[= -> ->]|Hinput]);
    [..|by apply elem_of_nil in Hinput].
  - unfold MovieFilter in Hin.
    repeat (apply elem_of_cons in Hin as [[= -> ->]|Hin];
            [first [by vm_compute
                   |exfalso; apply Hx; unfold text_fields;
                    rewrite !elem_of_cons; auto 6]|]).
    by apply elem_of_nil in Hin.
  - unfold TvFilter in Hin.
    repeat (apply elem_of_cons in Hin as [[= -> ->]|Hin]; [by vm_compute|]).
    by apply elem_of_nil in Hin.
  - unfold PersonFilter in Hin.
    repeat (apply elem_of_cons in Hin as [[= -> ->]|Hin]; [by vm_compute|]).
    by apply elem_of_nil in Hin.
Qed.

End schema_extras.



(** X10: text of the caller's can reach the query only through the four
    fields of [MovieFilter] with [String] operands.  For every filter that
    one of the three inputs admits and that uses none of [imdb_id],
    [status], [genres] and [spoken_languages], the compiled text closes
    the parentheses and quoted strings it opens and uses no other quoting,
    bracket or comment character. *)
Theorem text_fields_are_the_only_way_in declared entity (filter : Filter) text :
  (declared, entity) ∈ filter_inputs →
  typed declared filter →
  (∀ x v, (x, v) ∈ filter → x ∉ text_fields) →
  create_filter filter = Returned text →
  self_contained text.
Proof.
  intros Hinput Htyped Hfields (pushed & Hloop & ->)%create_filter_Returned.
  apply create_filter_loop_Returned in Hloop.
  apply self_contained_concat; [by apply plain_self_contained|].
  apply Forall_forall. intros t Ht.
  apply list_elem_of_lookup in Ht as [i Hi].
  destruct (Forall2_lookup_r _ _ _ _ _ Hloop Hi) as ([x v] & Hxv & Hentry).
  apply list_elem_of_lookup_2 in Hxv.
  destruct (Htyped x v Hxv) as (ty & Hdecl & Hv).
  eapply closed_entry_self_contained; [|done..].
  eapply declared_fields_closed; eauto.
Qed.

Lemma text_fields_are_the_only_way_in_witness :
  self_contained ("r.production_companies = 33,4 AND r.release_date > date("
                  +:+ dquote +:+ "1999-03-31" +:+ dquote +:+ ")").
Proof.
  apply (text_fields_are_the_only_way_in MovieFilter Movie
           [("production_companies", JArr [JNum 33; JNum 4]);
            ("release_date_GT", JDate "1999-03-31")]).
  - unfold filter_inputs. apply list_elem_of_here.
  - intros x v Hin.
    repeat (apply elem_of_cons in Hin as [[= -> ->]|Hin]).
    + exists (TList TInt). split; [|reflexivity].
      unfold MovieFilter. do 19 apply list_elem_of_further. apply list_elem_of_here.
    + exists TDate. split; [|reflexivity].
      unfold MovieFilter. do 21 apply list_elem_of_further. apply list_elem_of_here.
    + by apply elem_of_nil in Hin.
  - intros x v Hin.
    repeat (apply elem_of_cons in Hin as [[= -> ->]|Hin]);
      [..|by apply elem_of_nil in Hin];
      unfold text_fields; rewrite !elem_of_cons, elem_of_nil;
      intros [?|[?|[?|[?|[]]]]]; discriminate.
  - reflexivity.
Defined.

(** * More on the path decomposer *)

Section decomposer_extras.
Implicit Types st : State.
Implicit Types ts results : list PersonWithRelationships.
Implicit Types l : loc.
Implicit Types o : obj.

Lemma is_episode_enriched o : is_episode (enriched o) = is_episode o.
Proof. apply hasOwnProperty_enriched. Qed.

Lemma submitted_attach_parent_show l st :
  submitted (attach_parent_show l st)
  = (submitted st ++ if is_episode (deref st l)
                     then [show_query (deref st l)] else [])%list.
Proof.
  unfold attach_parent_show, is_episode.
  destruct (hasOwnProperty (deref st l) "episode_id"); [done|].
  by rewrite app_nil_r.
Qed.

(** The lookups submitted while the triples are enriched. *)
Lemma submitted_enrichment ts st :
  submitted (foldl (λ st t, attach_parent_show (project t) st) st ts)
  = (submitted st ++ show_lookups (heap st) ts)%list.
Proof.
  induction ts as [|t ts IH] using rev_ind.
  { simpl. by rewrite app_nil_r. }
  rewrite foldl_app. simpl. rewrite submitted_attach_parent_show, IH.
  destruct (enrichment_invariant ts st) as [Hall _]. simpl in Hall.
  unfold show_lookups. rewrite omap_app, app_assoc. f_equal. simpl.
  fold (deref st (project t)).
  destruct (Hall (project t)) as [-> | ->];
    rewrite ?is_episode_enriched, ?show_query_enriched;
    by destruct (is_episode (deref st (project t))).
Qed.

(** A properties object that is the project of no triple is not written. *)
Lemma enrichment_elsewhere ts st l :
  l ∉ project <$> ts →
  deref (foldl (λ st t, attach_parent_show (project t) st) st ts) l = deref st l.
Proof.
  induction ts as [|t ts IH] using rev_ind; [done|].
  rewrite fmap_app, not_elem_of_app. simpl. intros [Hts Ht].
  rewrite foldl_app. simpl. rewrite deref_attach_parent_show.
  rewrite decide_False; [by apply IH|].
  intros ->. apply Ht, list_elem_of_here.
Qed.

Lemma lookup_enriched o k : k ≠ "parent_show" → enriched o !! k = o !! k.
Proof.
  intros Hk. unfold enriched. destruct (hasOwnProperty o "episode_id"); [|done].
  by rewrite lookup_insert_ne.
Qed.

Lemma resolveType_enriched o :
  MovieOrTvEpisode.__resolveType (enriched o) = MovieOrTvEpisode.__resolveType o.
Proof.
  unfold MovieOrTvEpisode.__resolveType, get_prop.
  by rewrite !lookup_enriched.
Qed.

Lemma earlier_loop i (segs : list PathSegment) results :
  Earlier.loop i segs results
  = (results ++ imap (λ j, triple_at (i + j)) segs)%list.
Proof.
  revert i results. induction segs as [|seg segs IH]; intros i results.
  - simpl. by rewrite app_nil_r.
  - cbn [Earlier.loop imap]. rewrite IH, <- app_assoc. simpl.
    rewrite Nat.add_0_r. f_equal. unfold triple_at at 2. f_equal.
    apply imap_ext. intros j s _. simpl. f_equal. lia.
Qed.
End decomposer_extras.

(** X11: when the query is built and the traversal returns a record,
    [find_path] resolves to the triples of the first record's path and has
    submitted the traversal query first and then one show lookup for every
    triple whose project has an own [episode_id], in the order of the
    triples; an episode that two segments share is looked up twice. *)
Theorem find_path_submits_one_lookup_per_episode_triple
    executeQuery (_args : PathArgs) query (h : gmap loc obj) path (rest : list Path) :
  build_query _args = Returned query →
  executeQuery query = Returned (h, {| records := path :: rest |}) →
  ∃ st',
    find_path executeQuery _args
    = (st', Returned (imap triple_at (segments path)))
    ∧ submitted st' = query :: show_lookups h (imap triple_at (segments path)).
Proof.
  intros Hq Hexec. unfold find_path. rewrite Hq, Hexec, find_path_then_record.
  eexists. split; [reflexivity|]. by rewrite submitted_enrichment.
Qed.

Lemma find_path_submits_one_lookup_per_episode_triple_witness :
  ∃ st' query,
    build_query {| first_person_id := 6384; second_person_id := 530;
                   filters := None |} = Returned query
    ∧ find_path (λ _, Returned (episode_heap, {| records := [episode_path] |}))
        {| first_person_id := 6384; second_person_id := 530; filters := None |}
      = (st', Returned (imap triple_at (segments episode_path)))
    ∧ submitted st'
      = [query; "MATCH (tvShow:TvShow{tv_id:155513}) RETURN tvShow";
         "MATCH (tvShow:TvShow{tv_id:155513}) RETURN tvShow"].
Proof.
  destruct (find_path_submits_one_lookup_per_episode_triple
              (λ _, Returned (episode_heap, {| records := [episode_path] |}))
              {| first_person_id := 6384; second_person_id := 530; filters := None |}
              _ episode_heap episode_path [] eq_refl eq_refl)
    as (st' & Hfind & Hsub).
  eexists st', _. split; [reflexivity|]. split; [exact Hfind|]. exact Hsub.
Defined.

(** X12: the decomposition writes nothing but [parent_show], and that only
    into the properties of projects with an own [episode_id]: every other
    property of every object, every object without [episode_id], and every
    object that is the project of no triple is as the driver returned it. *)
Theorem find_path_then_writes_only_parent_show
    (res : QueryResult) (st st' : State) results :
  find_path_then res st = Returned (st', results) →
  (∀ l k, k ≠ "parent_show" → deref st' l !! k = deref st l !! k)
  ∧ (∀ l, is_episode (deref st l) = false → deref st' l = deref st l)
  ∧ (∀ l, l ∉ project <$> results → deref st' l = deref st l).
Proof.
  destruct res as [[|path rest]]; [done|].
  rewrite find_path_then_record. intros [= <- <-].
  destruct (enrichment_invariant (imap triple_at (segments path)) st) as [Hall _].
  simpl in Hall. split; [|split].
  - intros l k Hk. destruct (Hall l) as [-> | ->]; [done|].
    by apply lookup_enriched.
  - intros l Hl. destruct (Hall l) as [-> | ->]; [done|].
    unfold enriched. unfold is_episode in Hl. by rewrite Hl.
  - intros l Hl. by apply enrichment_elsewhere.
Qed.

Lemma find_path_then_writes_only_parent_show_witness :
  ∃ st' results,
    find_path_then {| records := [episode_path] |} episode_state
    = Returned (st', results)
    ∧ deref st' 1 !! "title" = Some (JStr "Pilot")
    ∧ deref st' 0 = deref episode_state 0
    ∧ deref st' 2 = deref episode_state 2.
Proof.
  destruct (find_path_then {| records := [episode_path] |} episode_state)
    as [[st' results]|] eqn:Hthen; [|discriminate Hthen].
  destruct (find_path_then_writes_only_parent_show _ _ _ _ Hthen)
    as (Hkeys & Hplain & _).
  exists st', results. split; [reflexivity|]. split; [|split].
  - by rewrite Hkeys.
  - by apply Hplain.
  - by apply Hplain.
Defined.

(** X13: the enrichment does not change how a project resolves: for every
    properties object, [MovieOrTvEpisode.__resolveType] returns after the
    decomposition what it returns on the object as the driver gave it. *)
Theorem enrichment_keeps_the_resolved_type
    (res : QueryResult) (st st' : State) results l :
  find_path_then res st = Returned (st', results) →
  MovieOrTvEpisode.__resolveType (deref st' l)
  = MovieOrTvEpisode.__resolveType (deref st l).
Proof.
  destruct res as [[|path rest]]; [done|].
  rewrite find_path_then_record. intros [= <- <-].
  destruct (enrichment_invariant (imap triple_at (segments path)) st) as [Hall _].
  simpl in Hall. destruct (Hall l) as [-> | ->]; [done|].
  apply resolveType_enriched.
Qed.

Lemma enrichment_keeps_the_resolved_type_witness :
  ∃ st' results,
    find_path_then {| records := [episode_path] |} episode_state
    = Returned (st', results)
    ∧ MovieOrTvEpisode.__resolveType (deref st' 1) = JStr "TvEpisode".
Proof.
  destruct (find_path_then {| records := [episode_path] |} episode_state)
    as [[st' results]|] eqn:Hthen; [|discriminate Hthen].
  exists st', results. split; [reflexivity|].
  by rewrite (enrichment_keeps_the_resolved_type _ _ _ _ 1 Hthen).
Defined.

(** X14: the callback of [find_path] returns the triples that the callback
    of the earlier version returns, and throws when that one throws: the
    show lookups were added without changing the decomposition. *)
Theorem find_path_then_agrees_with_earlier (res : QueryResult) (st : State) :
  snd <$> find_path_then res st = Earlier.find_path_then res.
Proof.
  destruct res as [[|path rest]]; [done|].
  rewrite find_path_then_record. unfold Earlier.find_path_then. simpl.
  by rewrite earlier_loop.
Qed.

(** * The other resolvers and the handler *)

(** X15: [Relationship.__resolveType] always returns a member of the union
    [Relationship]: [castObj] exactly when [character] is truthy, [crewObj]
    exactly when it is not and [department] is truthy, [Credit] otherwise.
    It agrees with the earlier version wherever that one did not return
    [null], and returns [Credit] where it did. *)
Theorem Relationship_resolves_to_a_member (o : obj) :
  (∃ m, m ∈ Relationship_members ∧ Relationship.__resolveType o = JStr m)
  ∧ (Relationship.__resolveType o = JStr "castObj"
     ↔ truthy (get_prop o "character") = true)
  ∧ (Relationship.__resolveType o = JStr "crewObj"
     ↔ truthy (get_prop o "character") = false
       ∧ truthy (get_prop o "department") = true)
  ∧ (Earlier.Relationship__resolveType o ≠ JNull →
     Relationship.__resolveType o = Earlier.Relationship__resolveType o)
  ∧ (Earlier.Relationship__resolveType o = JNull →
     Relationship.__resolveType o = JStr "Credit").
Proof.
  unfold Relationship.__resolveType, Earlier.Relationship__resolveType,
    Relationship_members.
  destruct (truthy (get_prop o "character")),
           (truthy (get_prop o "department"));
    repeat split; try done; try (intros [? ?]; done);
    eexists; (split; [|reflexivity]);
    rewrite !elem_of_cons; auto.
Qed.

Lemma Relationship_resolves_to_a_member_witness :
  Relationship.__resolveType (rel_properties cast_edge) = JStr "castObj"
  ∧ Relationship.__resolveType (rel_properties crew_edge) = JStr "crewObj"
  ∧ Relationship.__resolveType {[ "credit_id" := JStr "c3" ]} = JStr "Credit".
Proof.
  split; [|split].
  - by apply Relationship_resolves_to_a_member.
  - by apply Relationship_resolves_to_a_member.
  - by apply Relationship_resolves_to_a_member.
Defined.

(** X16: [test] throws a [TypeError] when the episode lookup finds nothing,
    after submitting that lookup only.  When it finds a node it returns the
    node's properties with the promise of the lookup of show 155513 as
    [parent_show], whatever the episode's own [tv_show_id], having
    submitted the two lookups and changed nothing else; for an episode of
    that show this is the enrichment [find_path] performs. *)
Theorem test_attaches_show_155513
    (run : string → completion (gmap loc obj * list Node)) (h : gmap loc obj) :
  (run test_episode_query = Returned (h, []) →
   test run = ({| heap := h; submitted := [test_episode_query] |}, Thrown TypeError))
  ∧ (∀ p rest,
       run test_episode_query = Returned (h, p :: rest) →
       let o := default ∅ (h !! node_properties p) in
       ∃ st',
         test run = (st', Returned (first_label_is_TvEpisode p, node_properties p))
         ∧ submitted st' = [test_episode_query; test_show_query]
         ∧ deref st' (node_properties p)
           = <["parent_show" := JPromise test_show_query]> o
         ∧ (∀ l, l ≠ node_properties p → deref st' l = default ∅ (h !! l))
         ∧ (is_episode o = true →
            to_String (get_prop o "tv_show_id") = "155513" →
            heap st' = heap (attach_parent_show (node_properties p)
                               {| heap := h; submitted := [test_episode_query] |}))).
Proof.
  split.
  - intros Hrun. unfold test. by rewrite Hrun.
  - intros p rest Hrun o. unfold test. rewrite Hrun. simpl.
    eexists. split; [reflexivity|]. split; [done|]. split; [|split].
    + unfold deref. simpl. by rewrite lookup_insert_eq.
    + intros l Hl. unfold deref. simpl. by rewrite lookup_insert_ne.
    + intros Hepisode Hshow. unfold attach_parent_show, deref. simpl.
      fold o. unfold is_episode in Hepisode. rewrite Hepisode. simpl.
      unfold show_query. by rewrite Hshow.
Qed.

Lemma test_attaches_show_155513_witness :
  ∃ st',
    test (λ _, Returned (episode_heap, [pilot]))
    = (st', Returned (true, 1))
    ∧ submitted st' = [test_episode_query; test_show_query]
    ∧ heap st' = heap (attach_parent_show 1
                         {| heap := episode_heap; submitted := [test_episode_query] |}).
Proof.
  destruct (test_attaches_show_155513 (λ _, Returned (episode_heap, [pilot]))
              episode_heap) as [_ H].
  destruct (H pilot [] eq_refl) as (st' & Htest & Hsub & _ & _ & Hsame).
  exists st'. split; [exact Htest|]. split; [exact Hsub|].
  by apply Hsame.
Defined.

(** X17: [handler] sets the three CORS headers on every response, under
    whatever capitalisation they are read, and leaves the other headers as
    they were.  A request whose method is exactly [OPTIONS] is answered by
    the handler itself: the response is ended, [false] is returned and the
    server is not built, started or run.  Every other request is passed
    with the response so prepared to the server, whose outcome is the
    handler's. *)
Theorem handler_answers_preflight_itself
    (serve : Request → Response → Response * completion ())
    (req : Request) (res : Response) :
  ∃ cors,
    writableEnded cors = writableEnded res
    ∧ (∀ name, toLowerCase name = "access-control-allow-credentials" →
               getHeader name cors = Some "true")
    ∧ (∀ name, toLowerCase name = "access-control-allow-origin" →
               getHeader name cors = Some "https://studio.apollographql.com")
    ∧ (∀ name, toLowerCase name = "access-control-allow-headers" →
               getHeader name cors
               = Some "Origin, X-Requested-With, Content-Type, Accept")
    ∧ (∀ name, toLowerCase name ∉ ["access-control-allow-credentials";
                                    "access-control-allow-origin";
                                    "access-control-allow-headers"] →
               getHeader name cors = getHeader name res)
    ∧ (method req = "OPTIONS" →
       handler serve req res = (end_response cors, Returned (JBool false)))
    ∧ (method req ≠ "OPTIONS" →
       handler serve req res
       = ((serve req cors).1, (serve req cors).2 ≫= λ _, Returned JUndefined)).
Proof.
  exists (setHeader "Access-Control-Allow-Headers"
            "Origin, X-Requested-With, Content-Type, Accept"
            (setHeader "Access-Control-Allow-Origin"
               "https://studio.apollographql.com"
               (setHeader "Access-Control-Allow-Credentials" "true" res))).
  split; [done|].
  assert (∀ name, getHeader name
            (setHeader "Access-Control-Allow-Headers"
               "Origin, X-Requested-With, Content-Type, Accept"
               (setHeader "Access-Control-Allow-Origin"
                  "https://studio.apollographql.com"
                  (setHeader "Access-Control-Allow-Credentials" "true" res)))
          = <["access-control-allow-headers" :=
                "Origin, X-Requested-With, Content-Type, Accept"]>
              (<["access-control-allow-origin" := "https://studio.apollographql.com"]>
                 (<["access-control-allow-credentials" := "true"]> (headers res)))
            !! toLowerCase name) as Hget by done.
  split; [|split; [|split; [|split; [|split]]]].
  - intros name Hname. rewrite Hget, Hname.
    rewrite !lookup_insert_ne by done. by rewrite lookup_insert_eq.
  - intros name Hname. rewrite Hget, Hname.
    rewrite !lookup_insert_ne by done. by rewrite lookup_insert_eq.
  - intros name Hname. rewrite Hget, Hname.
    by rewrite lookup_insert_eq.
  - intros name Hname. rewrite Hget.
    rewrite !elem_of_cons, elem_of_nil in Hname.
    rewrite !lookup_insert_ne; [done|..]; intros Heq; apply Hname;
      rewrite <- Heq; auto.
  - intros Hm. unfold handler. by rewrite Hm.
  - intros Hm. unfold handler. apply String.eqb_neq in Hm. rewrite Hm.
    by destruct (serve _ _) as [res' [[]|e]].
Qed.

Lemma handler_answers_preflight_itself_witness :
  ∃ res',
    handler (λ _ res, (res, Thrown TypeError)) {| method := "OPTIONS" |}
      {| headers := {[ "content-type" := "application/json" ]};
         writableEnded := false |}
    = (res', Returned (JBool false))
    ∧ writableEnded res' = true
    ∧ getHeader "ACCESS-CONTROL-ALLOW-ORIGIN" res'
      = Some "https://studio.apollographql.com"
    ∧ getHeader "Content-Type" res' = Some "application/json".
Proof.
  destruct (handler_answers_preflight_itself
              (λ _ res, (res, Thrown TypeError)) {| method := "OPTIONS" |}
              {| headers := {[ "content-type" := "application/json" ]};
                 writableEnded := false |})
    as (cors & _ & _ & Horigin & _ & Hother & Hpreflight & _).
  exists (end_response cors). split; [by apply Hpreflight|].
  split; [done|]. split.
  - apply (Horigin "ACCESS-CONTROL-ALLOW-ORIGIN"). reflexivity.
  - transitivity (getHeader "Content-Type" cors); [reflexivity|].
    rewrite Hother; [reflexivity|].
    rewrite !elem_of_cons, elem_of_nil. vm_compute. intuition discriminate.
Defined.

(** * Names, operands and bounds *)

Section names_and_bounds.
Implicit Types x t base suffix sep a b s : string.
Implicit Types v lo hi : jsval.

(** The text before the first occurrence is no longer than what precedes
    any occurrence. *)
Lemma before_length sep a b :
  sep ≠ "" → (String.length (before sep (a +:+ sep +:+ b)) ≤ String.length a)%nat.
Proof.
  intros Hsep. induction a as [|c a IH].
  - rewrite app_empty_l. destruct (sep +:+ b) eqn:E; [done|].
    cbn [before]. rewrite <- E, prefix_app. simpl. lia.
  - rewrite app_cons. cbn [before].
    destruct (String.prefix sep _); simpl; lia.
Qed.

Lemma before_app_iff sep base :
  sep ≠ "" →
  (∀ a base b, base +:+ sep = a +:+ sep +:+ b → b = "" ∨ occurs sep base) →
  before sep (base +:+ sep) = base ↔ ¬ occurs sep base.
Proof.
  intros Hsep Hend. split.
  - intros Heq (a & b & ->).
    pose proof (before_length sep a (b +:+ sep) Hsep) as Hlen.
    rewrite <- !app_assoc_text in Heq. rewrite !app_assoc_text in Heq.
    rewrite Heq in Hlen. rewrite !length_app_text in Hlen.
    destruct sep; [done|]. simpl in Hlen. lia.
  - intros Hfree. apply before_app. intros a b H. by destruct (Hend _ _ _ H).
Qed.

Lemma compared_field_suffix suffix base :
  suffix ∈ suffixes →
  compared_field (base +:+ suffix) = before suffix (base +:+ suffix).
Proof.
  intros Hin. unfold suffixes in Hin. unfold compared_field.
  repeat (apply elem_of_cons in Hin as [->|Hin]);
    [..|by apply elem_of_nil in Hin].
  - by rewrite endsWith_app.
  - rewrite (not_endsWith_same_length base "_LT" "_GT") by done.
    by rewrite endsWith_app.
  - rewrite !(not_endsWith_last_char (base +:+ "_GTE"))
      by (rewrite ?last_char_app; done).
    by rewrite endsWith_app.
  - rewrite !(not_endsWith_last_char (base +:+ "_LTE") "_GT"),
      !(not_endsWith_last_char (base +:+ "_LTE") "_LT")
      by (rewrite ?last_char_app; done).
    rewrite (not_endsWith_same_length base "_LTE" "_GTE") by done.
    by rewrite endsWith_app.
  - rewrite !endsWith_IN_only by (rewrite !elem_of_cons; auto).
    by rewrite endsWith_app.
Qed.

Lemma suffix_only_at_end suffix a base b :
  suffix ∈ suffixes →
  base +:+ suffix = a +:+ suffix +:+ b → b = "" ∨ occurs suffix base.
Proof.
  intros Hin. unfold suffixes in Hin.
  repeat (apply elem_of_cons in Hin as [->|Hin]);
    [..|by apply elem_of_nil in Hin];
    eauto using GT_only_at_end, LT_only_at_end, GTE_only_at_end,
      LTE_only_at_end, IN_only_at_end.
Qed.

Lemma occurs_compared f op s :
  occurs ("r." +:+ f +:+ " ") ("r." +:+ f +:+ " " +:+ op +:+ s).
Proof. exists "", (op +:+ s). by rewrite app_empty_l, !app_assoc_text. Qed.

Lemma filter_entry_compared_field x v t :
  filter_entry x v = Returned t →
  occurs ("r." +:+ compared_field x +:+ " ") t.
Proof.
  unfold filter_entry, compared_field. rewrite !first_piece_split.
  destruct (endsWith x "_GT").
  { intros [= <-]. apply (occurs_compared _ "> "). }
  destruct (endsWith x "_LT").
  { intros [= <-]. apply (occurs_compared _ "< "). }
  destruct (endsWith x "_GTE").
  { intros [= <-]. apply (occurs_compared _ ">= "). }
  destruct (endsWith x "_LTE").
  { intros [= <-]. apply (occurs_compared _ "<= "). }
  destruct (endsWith x "_IN").
  { destruct (index (filter_values v) 0) as [lo|]; [|done].
    destruct (index (filter_values v) 1) as [hi|]; [|done].
    simpl. intros [= <-].
    exists (to_String lo +:+ " <= "), ("<= " +:+ to_String hi).
    by rewrite !app_assoc_text. }
  intros [= <-]. apply (occurs_compared _ "= ").
Qed.
End names_and_bounds.

(** X18: the field an entry is compared at is the part of its name before
    the first occurrence of the suffix it ends in.  For a name made of a
    base and a suffix this is the base exactly when the suffix does not
    occur inside the base; otherwise it is a shorter text. *)
Theorem compared_field_is_the_text_before_the_suffix :
  (∀ x v t, filter_entry x v = Returned t →
            occurs ("r." +:+ compared_field x +:+ " ") t)
  ∧ (∀ suffix base, suffix ∈ suffixes →
       compared_field (base +:+ suffix) = base ↔ ¬ occurs suffix base).
Proof.
  split.
  - apply filter_entry_compared_field.
  - intros suffix base Hin. rewrite compared_field_suffix by done.
    apply before_app_iff.
    + intros ->. unfold suffixes in Hin.
      repeat (apply elem_of_cons in Hin as [?|Hin]); try done.
      by apply elem_of_nil in Hin.
    + intros a base' b. by apply suffix_only_at_end.
Qed.

Lemma compared_field_is_the_text_before_the_suffix_witness :
  occurs ("r." +:+ compared_field "min_GT_max_GT" +:+ " ") "r.min > 1"
  ∧ compared_field ("budget" +:+ "_LTE") = "budget".
Proof.
  destruct compared_field_is_the_text_before_the_suffix as [Hoccurs Hbase].
  split.
  - by apply (Hoccurs "min_GT_max_GT" (JNum 1)).
  - apply Hbase.
    + unfold suffixes. do 3 apply list_elem_of_further. apply list_elem_of_here.
    + intros H%includes_occurs. discriminate H.
Defined.

(** X19: a [Date] operand of an entry whose name does not end in [_IN] is
    spliced as a [date("...")] literal at the end of the entry's text,
    whatever the name; the dates of a range entry are spliced bare, as the
    two bounds of the chained comparison. *)
Theorem date_operands_are_wrapped_outside_ranges x :
  (endsWith x "_IN" = false →
   ∀ iso t, filter_entry x (JDate iso) = Returned t →
            ∃ head, t = head +:+ "date(" +:+ dquote +:+ iso +:+ dquote +:+ ")")
  ∧ (endsWith x "_IN" = true →
     ∀ a b (rest : list jsval),
       filter_entry x (JArr (JDate a :: JDate b :: rest))
       = Returned (a +:+ " <= r." +:+ compared_field x +:+ " <= " +:+ b)).
Proof.
  split.
  - intros HIN iso t. unfold filter_entry. rewrite HIN.
    repeat case_match; intros [= <-]; cbn [filter_values to_String String.concat];
      eexists; rewrite <- !app_assoc_text; reflexivity.
  - intros HIN a b rest. unfold filter_entry, compared_field.
    destruct (endsWith_IN_excludes _ HIN) as (-> & -> & -> & ->).
    by rewrite HIN, first_piece_split.
Qed.

Lemma date_operands_are_wrapped_outside_ranges_witness :
  (∃ head, "r.birthday < date(" +:+ dquote +:+ "1980-05-17" +:+ dquote +:+ ")"
           = head +:+ "date(" +:+ dquote +:+ "1980-05-17" +:+ dquote +:+ ")")
  ∧ filter_entry "birthday_IN" (JArr [JDate "1980-01-01"; JDate "1989-12-31"])
    = Returned ("1980-01-01" +:+ " <= r." +:+ compared_field "birthday_IN"
                +:+ " <= " +:+ "1989-12-31").
Proof.
  split.
  - by apply (proj1 (date_operands_are_wrapped_outside_ranges "birthday_LT")
                eq_refl "1980-05-17").
  - by apply (proj2 (date_operands_are_wrapped_outside_ranges "birthday_IN")).
Defined.

(** X20: a range entry uses the first two elements of its array and no
    other: further elements change nothing, and a missing second or first
    bound is spliced as the text [undefined]. *)
Theorem range_uses_the_first_two_bounds x :
  endsWith x "_IN" = true →
  (∀ lo hi (rest : list jsval),
     filter_entry x (JArr (lo :: hi :: rest)) = filter_entry x (JArr [lo; hi]))
  ∧ (∀ lo, filter_entry x (JArr [lo])
           = Returned (to_String lo +:+ " <= r." +:+ compared_field x
                       +:+ " <= undefined"))
  ∧ filter_entry x (JArr [])
    = Returned ("undefined <= r." +:+ compared_field x +:+ " <= undefined").
Proof.
  intros HIN. unfold filter_entry, compared_field.
  destruct (endsWith_IN_excludes _ HIN) as (-> & -> & -> & ->).
  rewrite HIN, first_piece_split. by repeat split.
Qed.

Lemma range_uses_the_first_two_bounds_witness :
  filter_entry "runtime_IN" (JArr [JNum 60; JNum 90; JNum 120])
  = filter_entry "runtime_IN" (JArr [JNum 60; JNum 90])
  ∧ filter_entry "runtime_IN" (JArr [JNum 60])
    = Returned "60 <= r.runtime <= undefined".
Proof.
  destruct (range_uses_the_first_two_bounds "runtime_IN" eq_refl)
    as (Hrest & Hone & _).
  split; [apply Hrest|apply Hone].
Defined.

(** X21: on a chained path consecutive triples are linked end to end: the
    triple of an even segment and the one after it share their project, the
    triple of an odd segment and the one after it share their person; the
    first triple's person is the node the path starts at and, when the
    number of segments is even, the last triple's person is the node it
    ends at. *)
Theorem triples_are_linked path (rest : list Path) (st st' : State) results :
  chained (segments path) →
  find_path_then {| records := path :: rest |} st = Returned (st', results) →
  (∀ i t u, results !! i = Some t → results !! S i = Some u →
            if (i mod 2 =? 0)%nat then project t = project u
            else person t = person u)
  ∧ (∀ s, segments path !! 0 = Some s →
          person <$> results !! 0 = Some (node_properties (seg_start s)))
  ∧ (∀ s, last (segments path) = Some s →
          (length (segments path) mod 2 =? 0)%nat = true →
          person <$> last results = Some (node_properties (seg_end s))).
Proof.
  intros Hchain. rewrite find_path_then_record. intros [= <- <-].
  split; [|split].
  - intros i t u Ht Hu. rewrite list_lookup_imap in Ht, Hu.
    destruct (segments path !! i) as [s|] eqn:Hs; [|done].
    destruct (segments path !! S i) as [s'|] eqn:Hs'; [|done].
    change (Some (triple_at i s) = Some t) in Ht.
    change (Some (triple_at (S i) s') = Some u) in Hu.
    injection Ht as <-. injection Hu as <-.
    pose proof (Hchain _ _ _ Hs Hs') as Hlink.
    unfold triple_at. rewrite parity_succ.
    destruct (i mod 2 =? 0)%nat; cbn [negb project person]; by rewrite Hlink.
  - intros s Hs. by rewrite list_lookup_imap, Hs.
  - intros s Hlast Heven. rewrite last_lookup in Hlast. rewrite last_lookup.
    rewrite length_imap, list_lookup_imap, Hlast.
    pose proof (lookup_lt_Some _ _ _ Hlast) as Hlt.
    destruct (length (segments path)) as [|n]; [lia|].
    rewrite parity_succ in Heven. apply negb_true_iff in Heven.
    cbn [pred fmap option_fmap option_map]. unfold triple_at.
    by rewrite Heven.
Qed.

Lemma triples_are_linked_witness :
  ∃ st' results t u,
    find_path_then {| records := [episode_path] |} episode_state
    = Returned (st', results)
    ∧ results !! 0 = Some t ∧ results !! 1 = Some u
    ∧ project t = project u
    ∧ person t = node_properties keanu
    ∧ person u = node_properties carrie.
Proof.
  assert (chained (segments episode_path)) as Hchain.
  { intros [|[|i]] s t Hs Ht; simpl in *; by simplify_eq. }
  destruct (triples_are_linked episode_path [] episode_state _ _ Hchain
              (find_path_then_record _ _ _)) as (Hlink & Hfirst & Hlast).
  eexists _, _, _, _. split; [apply find_path_then_record|].
  split; [reflexivity|]. split; [reflexivity|]. split; [|split].
  - by apply (Hlink 0).
  - apply (inj Some). exact (Hfirst _ eq_refl).
  - apply (inj Some). exact (Hlast _ eq_refl eq_refl).
Defined.
